(** * Wiki-link autocomplete server: heading index and link-context scan

    A shallow embedding of the note index, the heading extraction, the
    backward link-context scan, the completion lists, the resolve handler
    and the directory walk of the language server ([server.ts] and its
    variant with file discovery), with the properties of each.

    JavaScript strings are modelled as [string], one [ascii] per code unit
    (code units below 256); offsets into a text are [Z], since the scan
    decrements its offset below zero; [undefined] read from an index out
    of range is [None]. *)

From Stdlib Require Import ZArith Ascii String List Lia.
From stdpp Require Import base decidable option list strings pretty gmap.

Open Scope string_scope.
Open Scope list_scope.
Open Scope Z_scope.

(** ** String primitives of the host language *)

Module JS.

Definition LF : ascii := "010"%char.
Definition CR : ascii := "013"%char.

(** [s[i]]: the code unit at index [i], [undefined] out of range
    (negative indices included). *)
Definition charAt (s : string) (i : Z) : option ascii :=
  if i <? 0 then None else String.get (Z.to_nat i) s.

(** An index argument clamped to [0 .. s.length]. *)
Definition clampIndex (s : string) (i : Z) : nat :=
  Z.to_nat (Z.min (Z.max i 0) (Z.of_nat (String.length s))).

(** [s.substring(start, end)]: both arguments are clamped to the string
    and swapped when [start > end]. *)
Definition substring (s : string) (start end_ : Z) : string :=
  let a := clampIndex s start in
  let b := clampIndex s end_ in
  String.substring (Nat.min a b) (Nat.max a b - Nat.min a b) s.

(** [s.substr(start, length)] for a non-negative [start]. *)
Definition substr (s : string) (start len : nat) : string :=
  String.substring start len s.

(** [s.substr(start)]: up to the end of the string. *)
Definition substrFrom (s : string) (start : nat) : string :=
  String.substring start (String.length s - start) s.

Definition startsWith (s p : string) : bool := String.prefix p s.

Definition endsWith (s p : string) : bool :=
  let n := String.length s in
  let m := String.length p in
  (m <=? n)%nat && bool_decide (String.substring (n - m) m s = p).

(** Greatest index at or below [i] where [p] occurs in [s]. *)
Fixpoint lastIndexOfFrom (i : nat) (p s : string) : option nat :=
  if String.prefix p (substrFrom s i) then Some i
  else match i with
       | O => None
       | S j => lastIndexOfFrom j p s
       end.

(** [s.lastIndexOf(p)], with [None] for the result [-1]. *)
Definition lastIndexOf (s p : string) : option nat :=
  lastIndexOfFrom (String.length s) p s.

(** [s.replace(p, '')] with a string pattern: only the first occurrence
    of [p] is removed. *)
Definition removeFirst (s p : string) : string :=
  match String.index 0 p s with
  | Some i => substr s 0 i +:+ substrFrom s (i + String.length p)
  | None => s
  end.

(** White space and line terminators among the code units below 256. *)
Definition isWhiteSpace (c : ascii) : bool :=
  match c with
  | "009" | "010" | "011" | "012" | "013" | " " | "160" => true
  | _ => false
  end%char.

Fixpoint trimStart (s : string) : string :=
  match s with
  | String c r => if isWhiteSpace c then trimStart r else s
  | EmptyString => EmptyString
  end.

Fixpoint trimEnd (s : string) : string :=
  match s with
  | String c r =>
      match trimEnd r with
      | EmptyString => if isWhiteSpace c then EmptyString else String c EmptyString
      | r' => String c r'
      end
  | EmptyString => EmptyString
  end.

(** [s.trim()] *)
Definition trim (s : string) : string := trimEnd (trimStart s).

(** [s.split('\n')]: always at least one piece. *)
Fixpoint splitLines (s : string) : list string :=
  match s with
  | EmptyString => [EmptyString]
  | String c r =>
      if bool_decide (c = LF) then EmptyString :: splitLines r
      else match splitLines r with
           | piece :: pieces => String c piece :: pieces
           | [] => [String c EmptyString]
           end
  end.

End JS.

(** ** Data model *)

(** [interface Heading { title: string, level: number }] *)
Record Heading := { title : string; level : Z }.

(** [interface Note { filename: string, headings: Array<Heading> }] *)
Record Note := { filename : string; headings : list Heading }.

#[global] Instance Heading_eq_dec : EqDecision Heading.
Proof. solve_decision. Defined.

#[global] Instance Note_eq_dec : EqDecision Note.
Proof. solve_decision. Defined.

(** ** The backward link-context scan of [onCompletion] *)

(** The three ways the handler answers: the empty list, the list of all
    notes, the headings of one note. *)
Inductive LinkContext :=
| NoContext
| FileLinkContext
| HeadingLinkContext (noteFilename : string).

#[global] Instance LinkContext_eq_dec : EqDecision LinkContext.
Proof. solve_decision. Defined.

(** The mutable locals of the handler. The offset is an integer that the
    loop decrements without bound; every read at a negative offset is
    [undefined]. *)
Record ScanState := {
  currentPosition : Z;
  currentChar : option ascii;
  afterHeadingMarker : bool;
  headingMarkerPosition : Z;
  firstClosingBraceHit : bool;
  firstOpeningBraceHit : bool
}.

(** The locals as they are set before the loop. *)
Definition initialState (docText : string) (positionOffset : Z) : ScanState :=
  {| currentPosition := positionOffset;
     currentChar := JS.charAt docText positionOffset;
     afterHeadingMarker := false;
     headingMarkerPosition := 0;
     firstClosingBraceHit := false;
     firstOpeningBraceHit := false |}.

Inductive Outcome :=
| Return (ctx : LinkContext)
| Next (s : ScanState).

(** The last two statements of the loop body: step one offset back and
    read the character there. *)
Definition stepBack (docText : string) (s : ScanState) : ScanState :=
  {| currentPosition := currentPosition s - 1;
     currentChar := JS.charAt docText (currentPosition s - 1);
     afterHeadingMarker := afterHeadingMarker s;
     headingMarkerPosition := headingMarkerPosition s;
     firstClosingBraceHit := firstClosingBraceHit s;
     firstOpeningBraceHit := firstOpeningBraceHit s |}.

(** [currentChar == c] for a one-character literal [c]. *)
Definition charIs (s : ScanState) (c : ascii) : bool :=
  bool_decide (currentChar s = Some c).

(** One execution of the body of the [do ... while]. *)
Definition loopBody (docText : string) (s : ScanState) : Outcome :=
  if charIs s "#" then
    Next (stepBack docText
      {| currentPosition := currentPosition s;
         currentChar := currentChar s;
         afterHeadingMarker := true;
         headingMarkerPosition := currentPosition s;
         firstClosingBraceHit := firstClosingBraceHit s;
         firstOpeningBraceHit := firstOpeningBraceHit s |})
  else if charIs s "[" then
    if firstOpeningBraceHit s then
      if afterHeadingMarker s then
        Return (HeadingLinkContext
                  (JS.substring docText (currentPosition s + 2)
                                (headingMarkerPosition s)))
      else Return FileLinkContext
    else
      Next (stepBack docText
        {| currentPosition := currentPosition s;
           currentChar := currentChar s;
           afterHeadingMarker := afterHeadingMarker s;
           headingMarkerPosition := headingMarkerPosition s;
           firstClosingBraceHit := firstClosingBraceHit s;
           firstOpeningBraceHit := true |})
  else if charIs s "]" then
    if firstClosingBraceHit s then Return NoContext
    else
      Next (stepBack docText
        {| currentPosition := currentPosition s;
           currentChar := currentChar s;
           afterHeadingMarker := afterHeadingMarker s;
           headingMarkerPosition := headingMarkerPosition s;
           firstClosingBraceHit := true;
           firstOpeningBraceHit := firstOpeningBraceHit s |})
  else
    Next (stepBack docText
      {| currentPosition := currentPosition s;
         currentChar := currentChar s;
         afterHeadingMarker := afterHeadingMarker s;
         headingMarkerPosition := headingMarkerPosition s;
         firstClosingBraceHit := false;
         firstOpeningBraceHit := false |}).

(** [const exitChars = ['\n', '\r\n']] *)
Definition exitChars : list string :=
  [String JS.LF EmptyString; String JS.CR (String JS.LF EmptyString)].

(** [exitChars.indexOf(currentChar) === -1]: [undefined] is not in the
    array, and neither is any single code unit other than the newline. *)
Definition loopCondition (s : ScanState) : bool :=
  match currentChar s with
  | Some c => negb (bool_decide (String c EmptyString ∈ exitChars))
  | None => true
  end.

(** The loop, run for at most [fuel] executions of its body; [None] when
    the loop is still running after that many. The statement after the
    loop returns the empty list. *)
Fixpoint scanLoop (fuel : nat) (docText : string) (s : ScanState)
  : option LinkContext :=
  match fuel with
  | O => None
  | S fuel' =>
      match loopBody docText s with
      | Return ctx => Some ctx
      | Next s' =>
          if loopCondition s' then scanLoop fuel' docText s'
          else Some NoContext
      end
  end.

(** The state after [k] executions of the body, when the loop is still
    running then. *)
Fixpoint scanSteps (k : nat) (docText : string) (s : ScanState)
  : option ScanState :=
  match k with
  | O => Some s
  | S k' =>
      match loopBody docText s with
      | Return _ => None
      | Next s' =>
          if loopCondition s' then scanSteps k' docText s' else None
      end
  end.

(** The scan from a cursor offset. *)
Definition linkContextScan (fuel : nat) (docText : string)
    (positionOffset : Z) : option LinkContext :=
  scanLoop fuel docText (initialState docText positionOffset).

(** ** Heading extraction: [findHeadingsInDocument] *)

(** Length of the leading run of [#]: what the greedy [(#+)] takes. *)
Fixpoint hashRun (s : string) : nat :=
  match s with
  | String "#"%char r => S (hashRun r)
  | _ => O
  end.

(** [.] matches every code unit but a line terminator. *)
Definition isLineTerminator (c : ascii) : bool :=
  bool_decide (c = JS.LF) || bool_decide (c = JS.CR).

(** Length of the longest prefix without a line terminator: what the
    greedy [(.+)] takes. *)
Fixpoint dotRun (s : string) : nat :=
  match s with
  | String c r => if isLineTerminator c then O else S (dotRun r)
  | EmptyString => O
  end.

(** The pattern [(#+) (.+)] tried at index 0: the length of the match.
    After the whole run of [#] the next code unit is not a [#], so giving
    back some [#] never helps the single space to match; after the space
    the pattern ends with [(.+)], which keeps all it can take. *)
Definition matchAtStart (line : string) : option nat :=
  let hashes := hashRun line in
  if (hashes =? 0)%nat then None
  else match String.get hashes line with
       | Some " "%char =>
           let content := dotRun (JS.substrFrom line (S hashes)) in
           if (content =? 0)%nat then None
           else Some (hashes + 1 + content)%nat
       | _ => None
       end.

(** [re.exec(line)] for [re = /^(#+) (.+)/g]: the search starts at
    [re.lastIndex]; [^] (no [m] flag) holds at index 0 only, so a search
    started further right fails. A success leaves [lastIndex] at the end of
    the match, a failure resets it to 0. The result is the whole match
    ([lineMatches[0]]) and the new [lastIndex]. *)
Definition regexExec (lastIndex : nat) (line : string) : option string * nat :=
  if (lastIndex =? 0)%nat then
    match matchAtStart line with
    | Some n => (Some (JS.substr line 0 n), n)
    | None => (None, O)
    end
  else (None, O).

(** The callback of [textArrayOnNewlines.map], applied to the lines in
    order; the one regular expression object is shared by all the lines,
    so its [lastIndex] is threaded through. *)
Fixpoint mapLines (lastIndex : nat) (lines : list string) : list string :=
  match lines with
  | [] => []
  | line :: rest =>
      let '(lineMatches, lastIndex') := regexExec lastIndex line in
      let firstMatch := from_option id EmptyString lineMatches in
      let firstMatch := JS.trim (JS.removeFirst firstMatch "#") in
      firstMatch :: mapLines lastIndex' rest
  end.

(** The list handed to the callback [addToNote]. *)
Definition findHeadingsInDocument (textContent : string) : list string :=
  let textArrayOnNewlines := JS.splitLines textContent in
  let matches := mapLines 0 textArrayOnNewlines in
  filter (fun elem => elem ≠ EmptyString) matches.

(** The mapping inside [addHeadingsToNote]. *)
Definition headingsOfTitles (titles : list string) : list Heading :=
  (fun heading => {| title := heading; level := 1 |}) <$> titles.

(** ** The note index: [addNoteToList] *)

(** What the handler reads of a document. *)
Record TextDocument := { uri : string; getText : string }.

(** The note identifier derived from a document URI. *)
Definition noteFilename (rootUri extensionToRemove docUri : string) : string :=
  let name := JS.removeFirst docUri rootUri in
  let name :=
    if JS.endsWith name extensionToRemove then
      match JS.lastIndexOf name extensionToRemove with
      | Some fileExtPosition => JS.substr name 0 fileExtPosition
      | None => EmptyString
      end
    else name in
  if JS.startsWith name "/" then JS.substrFrom name 1 else name.

(** [notes.find(...)], with the index of the note found: the note object
    is shared with the array, so assigning its [headings] updates the
    array in place. A note that is absent is pushed at the end. *)
Definition upsertNote (name : string) (newHeadings : list Heading)
    (notes : list Note) : list Note :=
  match list_find (fun elem => filename elem = name) notes with
  | Some (i, existingNote) =>
      <[i := {| filename := filename existingNote; headings := newHeadings |}]> notes
  | None => notes ++ [{| filename := name; headings := newHeadings |}]
  end.

Definition addNoteToList (rootUri extensionToRemove : string)
    (textDocument : TextDocument) (notes : list Note) : list Note :=
  upsertNote (noteFilename rootUri extensionToRemove (uri textDocument))
             (headingsOfTitles (findHeadingsInDocument (getText textDocument)))
             notes.

(** A sequence of upserts, oldest first. *)
Definition upsertAll (ops : list (string * list Heading)) (notes : list Note)
  : list Note :=
  foldl (fun acc op => upsertNote op.1 op.2 acc) notes ops.

(** The headings given by the most recent upsert of [name] in [ops]. *)
Fixpoint lastUpsert (name : string) (ops : list (string * list Heading))
  : option (list Heading) :=
  match ops with
  | [] => None
  | (n, hs) :: rest =>
      match lastUpsert name rest with
      | Some hs' => Some hs'
      | None => if bool_decide (n = name) then Some hs else None
      end
  end.

(** ** Completion entries *)

(** The values held by the fields of a completion item. *)
Inductive JSValue :=
| JSNumber (n : Z)
| JSString (s : string)
| JSBoolean (b : bool).

#[global] Instance JSValue_eq_dec : EqDecision JSValue.
Proof. solve_decision. Defined.

(** A completion item is an object: a finite map from field names. *)
Abbreviation CompletionItem := (gmap string JSValue).

(** [CompletionItemKind.Text] of the language server protocol. *)
Definition CompletionItemKind_Text : Z := 1.

Definition headerCompletionResults (notes : list Note) (name : string)
  : list CompletionItem :=
  match list_find (fun note => filename note = name) notes with
  | Some (_, matchingNote) =>
      imap (fun index heading =>
              {[ "label" := JSString (title heading);
                 "king" := JSNumber CompletionItemKind_Text;
                 "data" := JSNumber (Z.of_nat index) ]})
           (headings matchingNote)
  | None => []
  end.

Definition fileCompletionResults (notes : list Note) : list CompletionItem :=
  imap (fun index note =>
          {[ "label" := JSString (filename note);
             "kind" := JSNumber CompletionItemKind_Text;
             "data" := JSNumber (Z.of_nat index) ]})
       notes.

(** The list returned at each exit of the scan. *)
Definition completionsFor (notes : list Note) (ctx : LinkContext)
  : list CompletionItem :=
  match ctx with
  | NoContext => []
  | FileLinkContext => fileCompletionResults notes
  | HeadingLinkContext name => headerCompletionResults notes name
  end.

(** The completion handler; [currentDoc] is [None] when no open document
    has the URI of the request. *)
Definition onCompletion (fuel : nat) (notes : list Note)
    (currentDoc : option TextDocument) (positionOffset : Z)
  : option (list CompletionItem) :=
  match currentDoc with
  | None => Some []
  | Some doc =>
      completionsFor notes <$> linkContextScan fuel (getText doc) positionOffset
  end.

(** The resolve handler. *)
Definition onCompletionResolve (item : CompletionItem) : CompletionItem :=
  if bool_decide (item !! "data" = Some (JSNumber 1)) then
    <["documentation" := JSString "TypeScript documentation"]>
      (<["detail" := JSString "TypeScript details"]> item)
  else if bool_decide (item !! "data" = Some (JSNumber 2)) then
    <["documentation" := JSString "JavaScript documentation"]>
      (<["detail" := JSString "JavaScript details"]> item)
  else item.

(** ** The directory walk: [getAllFiles] *)

(** A snapshot of a directory tree: what [readdirSync] with file types and
    [statSync] report of each entry, in the order [readdirSync] lists them.
    [UnreadableDirectory] is a directory that [readdirSync] refuses to
    list; [Inaccessible] is an entry that [statSync] refuses to examine
    (removed since it was listed, or in a directory that may not be
    searched). Both calls then throw, and nothing in the walk catches. *)
#[warnings="-register-all"]
Inductive DirEntry :=
| RegularFile
| SymbolicLink
| Directory (entries : list (string * DirEntry))
| UnreadableDirectory
| Inaccessible.

Definition isSymbolicLink (file : DirEntry) : bool :=
  match file with SymbolicLink => true | _ => false end.

(** [fs.statSync(path).isDirectory()], [None] when [statSync] throws.
    [statSync] follows links, so a path resolves to a link only when the
    link cannot be followed; the walk skips links before it examines them. *)
Definition statIsDirectory (file : DirEntry) : option bool :=
  match file with
  | Directory _ | UnreadableDirectory => Some true
  | RegularFile => Some false
  | SymbolicLink | Inaccessible => None
  end.

(** [fs.readdirSync(path, {withFileTypes: true})], [None] when it throws:
    the path is not a directory that can be listed. *)
Definition readdirSync (d : DirEntry) : option (list (string * DirEntry)) :=
  match d with
  | Directory files => Some files
  | _ => None
  end.

(** [dirWithSlash + file.name] *)
Definition locationOf (dir name : string) : string :=
  (if JS.endsWith dir "/" then dir else dir +:+ "/") +:+ name.

(** The callback of [files.forEach], applied to the entries in order;
    [count] and [allFiles] are the variables it updates, [walk] is the
    recursive call. The callback increments the counter at every
    subdirectory, and the nested call starts from the number of files
    collected so far plus that counter. [None] is an exception thrown by
    [statSync] or by the nested call: it leaves the loop and the walk. *)
Definition forEachFile (walk : string -> Z -> DirEntry -> option (list string))
    (dir : string)
  : list (string * DirEntry) -> Z -> list string -> option (list string) :=
  fix forEach files count allFiles {struct files} :=
    match files with
    | [] => Some allFiles
    | (name, file) :: rest =>
        if JS.startsWith name "." || isSymbolicLink file then
          forEach rest count allFiles
        else
          let currentLocation := locationOf dir name in
          match statIsDirectory file with
          | None => None
          | Some true =>
              let count := count + 1 in
              match walk currentLocation
                         (Z.of_nat (List.length allFiles) + count) file with
              | None => None
              | Some subDirFiles => forEach rest count (allFiles ++ subDirFiles)
              end
          | Some false =>
              if JS.endsWith name ".md" then
                forEach rest count (allFiles ++ [currentLocation])
              else forEach rest count allFiles
          end
    end.

(** The walk of the path [dir], where [d] is what that path resolves to.
    The result is the list returned, or [None] when an exception leaves
    the call. The counter is tested before the directory is read. *)
Fixpoint getAllFiles (dir : string) (count : Z) (d : DirEntry) {struct d}
  : option (list string) :=
  if 1000 <? count then Some []
  else
    match d with
    | Directory files => forEachFile getAllFiles dir files count []
    | _ => None
    end.

(** The same walk, which also yields the tree it has listed (the tree in
    which every entry whose call found its counter above the ceiling is
    an empty directory) and, also when an exception leaves it, tells
    whether some call found its counter above the ceiling. *)
Definition forEachFileTraced
    (walk : string -> Z -> DirEntry -> option (list string * DirEntry) * bool)
    (dir : string)
  : list (string * DirEntry) -> Z -> list string ->
    list (string * DirEntry) -> bool ->
    option (list string * list (string * DirEntry)) * bool :=
  fix forEach files count allFiles listed hit {struct files} :=
    match files with
    | [] => (Some (allFiles, listed), hit)
    | (name, file) :: rest =>
        if JS.startsWith name "." || isSymbolicLink file then
          forEach rest count allFiles (listed ++ [(name, file)]) hit
        else
          let currentLocation := locationOf dir name in
          match statIsDirectory file with
          | None => (None, hit)
          | Some true =>
              let count := count + 1 in
              match walk currentLocation
                         (Z.of_nat (List.length allFiles) + count) file with
              | (None, h) => (None, hit || h)
              | (Some (subDirFiles, file'), h) =>
                  forEach rest count (allFiles ++ subDirFiles)
                          (listed ++ [(name, file')]) (hit || h)
              end
          | Some false =>
              if JS.endsWith name ".md" then
                forEach rest count (allFiles ++ [currentLocation])
                        (listed ++ [(name, file)]) hit
              else forEach rest count allFiles (listed ++ [(name, file)]) hit
          end
    end.

Fixpoint getAllFilesTraced (dir : string) (count : Z) (d : DirEntry) {struct d}
  : option (list string * DirEntry) * bool :=
  if 1000 <? count then (Some ([], Directory []), true)
  else
    match d with
    | Directory files =>
        match forEachFileTraced getAllFilesTraced dir files count [] [] false with
        | (Some (allFiles, listed), hit) => (Some (allFiles, Directory listed), hit)
        | (None, hit) => (None, hit)
        end
    | _ => (None, false)
    end.

(** The contract of the walk, without the counter: every regular,
    non-hidden [.md] file reached through non-hidden real directories, in
    walk order; [None] when a directory cannot be listed or an entry
    cannot be examined. *)
Definition forEachMarkdown (walk : string -> DirEntry -> option (list string))
    (dir : string) : list (string * DirEntry) -> option (list string) :=
  fix forEach files {struct files} :=
    match files with
    | [] => Some []
    | (name, file) :: rest =>
        if JS.startsWith name "." || isSymbolicLink file then forEach rest
        else
          match statIsDirectory file with
          | None => None
          | Some true =>
              match walk (locationOf dir name) file with
              | None => None
              | Some subDirFiles =>
                  match forEach rest with
                  | None => None
                  | Some more => Some (subDirFiles ++ more)
                  end
              end
          | Some false =>
              if JS.endsWith name ".md" then
                match forEach rest with
                | None => None
                | Some more => Some (locationOf dir name :: more)
                end
              else forEach rest
          end
    end.

Fixpoint markdownFiles (dir : string) (d : DirEntry) {struct d}
  : option (list string) :=
  match d with
  | Directory files => forEachMarkdown markdownFiles dir files
  | _ => None
  end.

(** [listed] is the tree [d] in which some directories have been replaced
    by an empty directory; every other entry is as in [d], under the same
    name and at the same place. *)
#[warnings="-register-all"]
Inductive emptied : DirEntry -> DirEntry -> Prop :=
| emptied_same d : emptied d d
| emptied_refused d : statIsDirectory d = Some true -> emptied d (Directory [])
| emptied_inside files files' :
    Forall2 (fun entry entry' => entry.1 = entry'.1 /\ emptied entry.2 entry'.2)
            files files' ->
    emptied (Directory files) (Directory files').


(** ** Concrete inputs and auxiliary notions used by the properties *)

(** The character held by a state is the one at its offset. *)
Definition stateReads (docText : string) (s : ScanState) : Prop :=
  currentChar s = JS.charAt docText (currentPosition s).

(** The state in which the scan of ["See [[Note#Head"] from offset 16
    returns: at the left bracket of the pair. *)
Definition headingLinkFinalState : ScanState :=
  {| currentPosition := 4;
     currentChar := Some "["%char;
     afterHeadingMarker := true;
     headingMarkerPosition := 10;
     firstClosingBraceHit := false;
     firstOpeningBraceHit := true |}.

Definition closedLinkState : ScanState :=
  {| currentPosition := 7;
     currentChar := Some "]"%char;
     afterHeadingMarker := false;
     headingMarkerPosition := 0;
     firstClosingBraceHit := false;
     firstOpeningBraceHit := false |}.

(** The scan of ["[[A# b c"] from offset 8, after it has read the [#]. *)
Definition afterMarkerState : ScanState :=
  {| currentPosition := 2;
     currentChar := Some "A"%char;
     afterHeadingMarker := true;
     headingMarkerPosition := 3;
     firstClosingBraceHit := false;
     firstOpeningBraceHit := false |}.

(** The state in which the scan of ["[[A#B#C"] from offset 7 returns. *)
Definition leftmostHashState : ScanState :=
  {| currentPosition := 0;
     currentChar := Some "["%char;
     afterHeadingMarker := true;
     headingMarkerPosition := 3;
     firstClosingBraceHit := false;
     firstOpeningBraceHit := true |}.

(** The text whose lines are [lines], joined by newlines. *)
Definition joinLines (lines : list string) : string :=
  String.concat (String JS.LF EmptyString) lines.

(** What holds of a walk and its traced variant on one tree: the traced
    walk has the outcome of the walk; the files it returns are the
    complete listing of the tree it has listed, which is the walked tree
    with some directories emptied, and the walked tree itself when no call
    found its counter above the ceiling; they are a sub-list of the
    complete listing of the walked tree; and when an exception leaves the
    walk, the complete listing of the walked tree raises one too. *)
Definition walkAgrees (d : DirEntry) : Prop :=
  forall dir count,
    fst <$> (getAllFilesTraced dir count d).1 = getAllFiles dir count d /\
    (forall files listed,
       (getAllFilesTraced dir count d).1 = Some (files, listed) ->
       markdownFiles dir listed = Some files /\
       (count <= 1000 \/ statIsDirectory d = Some true -> emptied d listed) /\
       ((getAllFilesTraced dir count d).2 = false -> listed = d) /\
       (forall all, markdownFiles dir d = Some all -> files `sublist_of` all)) /\
    ((getAllFilesTraced dir count d).1 = None -> markdownFiles dir d = None).




(** ** Further notions used by the properties *)

(** The label of every entry of a completion list. *)
Definition labelsOf (items : list CompletionItem) : list (option JSValue) :=
  (fun item : CompletionItem => item !! "label") <$> items.

(** The [data] of every entry of a completion list. *)
Definition dataOf (items : list CompletionItem) : list (option JSValue) :=
  (fun item : CompletionItem => item !! "data") <$> items.

(** Whether every character of a string passes a test. *)
Fixpoint stringForall (P : ascii -> bool) (s : string) : bool :=
  match s with
  | EmptyString => true
  | String c r => P c && stringForall P r
  end.

(** Neither a bracket nor a newline. *)
Definition isTailChar (c : ascii) : bool :=
  negb (bool_decide (c = "["%char)) && negb (bool_decide (c = "]"%char))
  && negb (bool_decide (c = JS.LF)).

(** Neither [#], a bracket nor a newline. *)
Definition isNameChar (c : ascii) : bool :=
  negb (bool_decide (c = "#"%char)) && isTailChar c.

(** A run of [k] characters [#]. *)
Fixpoint hashes (k : nat) : string :=
  match k with
  | O => EmptyString
  | S k' => String "#" (hashes k')
  end.

(** Not a line terminator. *)
Definition isDotChar (c : ascii) : bool := negb (isLineTerminator c).

(** Not a newline. *)
Definition isLineChar (c : ascii) : bool := negb (bool_decide (c = JS.LF)).

(** The one-character string of a newline. *)
Definition newline : string := String JS.LF EmptyString.

(** The number of entries of a directory tree, at every depth. *)
Definition entriesSize (size : DirEntry -> nat)
  : list (string * DirEntry) -> nat :=
  fix go files :=
    match files with
    | [] => O
    | (_, file) :: rest => S (size file + go rest)
    end.

Fixpoint treeSize (d : DirEntry) : nat :=
  match d with
  | Directory files => entriesSize treeSize files
  | _ => O
  end.

(** A path below [dir] that ends in [.md]. *)
Definition pathUnder (dir path : string) : Prop :=
  (exists suffix, path = dir +:+ suffix) /\ JS.endsWith path ".md" = true.

(** The index after the documents [docs] have changed, one after the
    other: each change event runs [addNoteToList] on its document. *)
Definition afterChanges (rootUri extensionToRemove : string)
    (docs : list TextDocument) (notes : list Note) : list Note :=
  foldl (fun acc doc => addNoteToList rootUri extensionToRemove doc acc)
        notes docs.

(** The documents handed to [addNoteToList] at startup by the variant with
    file discovery: one per file found, whose text is read from the file. *)
Definition discoveredDocuments (readFile : string -> string)
    (allFiles : list string) : list TextDocument :=
  (fun file => {| uri := file; getText := readFile file |}) <$> allFiles.

(** The index after [onInitialized] of that variant: the walk of [root]
    from counter 0, then [addNoteToList] on every file found, starting
    from the empty index. [None] when an exception leaves the walk, and
    with it the handler, before any note is added. *)
Definition onInitializedIndex (rootUri root : string) (tree : DirEntry)
    (readFile : string -> string) : option (list Note) :=
  match getAllFiles root 0 tree with
  | None => None
  | Some allFiles =>
      Some (afterChanges rootUri ".md"
              (discoveredDocuments readFile allFiles) [])
  end.

(** ** Diagnostics: [validateTextDocument] *)

(** [[A-Z]] *)
Definition isUpperCase (c : ascii) : bool :=
  (("A" <=? c) && (c <=? "Z"))%char.

(** A word character of the pattern language: a letter, a digit or [_]. *)
Definition isWordChar (c : ascii) : bool :=
  (isUpperCase c || (("a" <=? c) && (c <=? "z"))
   || (("0" <=? c) && (c <=? "9")) || (c =? "_"))%char.

Definition isWordAt (text : string) (i : Z) : bool :=
  match JS.charAt text i with
  | Some c => isWordChar c
  | None => false
  end.

(** The assertion [\b] at index [i]: exactly one of the characters before
    and at [i] is a word character; outside the text there is none. *)
Definition wordBoundary (text : string) (i : nat) : bool :=
  xorb (isWordAt text (Z.of_nat i - 1)) (isWordAt text (Z.of_nat i)).

(** Length of the leading run of upper-case letters: what the greedy
    [[A-Z]{2,}] takes first. *)
Fixpoint upperRun (s : string) : nat :=
  match s with
  | String c r => if isUpperCase c then S (upperRun r) else O
  | EmptyString => O
  end.

(** The closing [\b] tried after [n] letters, then after one letter less,
    down to two letters. *)
Fixpoint tryLengths (text : string) (i n : nat) : option nat :=
  match n with
  | O => None
  | S n' =>
      if (2 <=? n)%nat then
        if wordBoundary text (i + n) then Some n else tryLengths text i n'
      else None
  end.

(** The pattern [\b[A-Z]{2,}\b] tried at index [i]: the length of the
    match. *)
Definition matchUpperWordAt (text : string) (i : nat) : option nat :=
  if wordBoundary text i then
    tryLengths text i (upperRun (JS.substrFrom text i))
  else None.

(** The start indices [i], [i + 1], ... tried in turn, [tries] of them. *)
Fixpoint searchUpperWord (text : string) (i tries : nat)
  : option (nat * nat) :=
  match tries with
  | O => None
  | S tries' =>
      match matchUpperWordAt text i with
      | Some n => Some (i, n)
      | None => searchUpperWord text (S i) tries'
      end
  end.

(** [pattern.exec(text)] for the global pattern: the match found from
    [lastIndex] on, as its index and length, and the new [lastIndex]. *)
Definition patternExec (text : string) (lastIndex : nat)
  : option (nat * nat) * nat :=
  if (String.length text <? lastIndex)%nat then (None, O)
  else
    match searchUpperWord text lastIndex (String.length text - lastIndex + 1) with
    | Some (i, n) => (Some (i, n), (i + n)%nat)
    | None => (None, O)
    end.

Record RelatedInformation (P : Type) := {
  locationUri : string;
  locationStart : P;
  locationEnd : P;
  relatedMessage : string
}.

Record Diagnostic (P : Type) := {
  severity : Z;
  rangeStart : P;
  rangeEnd : P;
  message : string;
  source : string;
  relatedInformation : option (list (RelatedInformation P))
}.

Arguments locationUri {P} _.
Arguments locationStart {P} _.
Arguments locationEnd {P} _.
Arguments relatedMessage {P} _.
Arguments severity {P} _.
Arguments rangeStart {P} _.
Arguments rangeEnd {P} _.
Arguments message {P} _.
Arguments source {P} _.
Arguments relatedInformation {P} _.

(** [DiagnosticSeverity.Warning] of the language server protocol. *)
Definition DiagnosticSeverity_Warning : Z := 2.

(** The diagnostic built for the match of length [len] at [index];
    [positionAt] is the document's conversion of an offset to a position,
    [related] the capability flag of the client. *)
Definition diagnosticOf {P : Type} (positionAt : nat -> P) (related : bool)
    (docUri text : string) (index len : nat) : Diagnostic P :=
  let range_start := positionAt index in
  let range_end := positionAt (index + len)%nat in
  {| severity := DiagnosticSeverity_Warning;
     rangeStart := range_start;
     rangeEnd := range_end;
     message := JS.substr text index len +:+ " is all uppercase.";
     source := "ex";
     relatedInformation :=
       if related then
         Some [ {| locationUri := docUri; locationStart := range_start;
                   locationEnd := range_end;
                   relatedMessage := "Spelling matters" |};
                {| locationUri := docUri; locationStart := range_start;
                   locationEnd := range_end;
                   relatedMessage := "Particularly for names" |} ]
       else None |}.

(** The [while] loop, run for at most [fuel] tests of its condition. *)
Fixpoint validateLoop {P : Type} (positionAt : nat -> P) (related : bool)
    (docUri text : string) (fuel lastIndex problems : nat)
    (diagnostics : list (Diagnostic P)) : option (list (Diagnostic P)) :=
  match fuel with
  | O => None
  | S fuel' =>
      match patternExec text lastIndex with
      | (Some (index, len), lastIndex') =>
          if (problems <? 300)%nat then
            validateLoop positionAt related docUri text fuel' lastIndex'
              (S problems)
              (diagnostics ++ [diagnosticOf positionAt related docUri text index len])
          else Some diagnostics
      | (None, _) => Some diagnostics
      end
  end.

(** The diagnostics sent for a document. *)
Definition validateTextDocument {P : Type} (positionAt : nat -> P)
    (related : bool) (fuel : nat) (textDocument : TextDocument)
  : option (list (Diagnostic P)) :=
  validateLoop positionAt related (uri textDocument) (getText textDocument)
               fuel 0 0 [].

(** What a match of the pattern is: at least two upper-case letters inside
    the text, with no word character directly before or after them. *)
Definition isUpperWord (text : string) (i n : nat) : Prop :=
  (2 <= n)%nat /\ (i + n <= String.length text)%nat /\
  stringForall isUpperCase (JS.substr text i n) = true /\
  isWordAt text (Z.of_nat i - 1) = false /\
  isWordAt text (Z.of_nat (i + n)) = false.

(** A diagnostic that reports an upper-case word of the text. *)
Definition reportsUpperWord {P : Type} (positionAt : nat -> P) (related : bool)
    (docUri text : string) (d : Diagnostic P) : Prop :=
  exists i n, d = diagnosticOf positionAt related docUri text i n /\
              isUpperWord text i n.

(** * Properties *)

(** Settles a property of every offset of a short concrete range by going
    through the offsets one by one. *)
Ltac each_offset q Hq :=
  let n := fresh "n" in
  let E := fresh "E" in
  remember (Z.to_nat q) as n eqn:E;
  assert (q = Z.of_nat n) as -> by lia;
  do 20 (destruct n as [|n];
         [first [ exfalso; lia | repeat split; discriminate ] |]);
  exfalso; lia.

(** ** The scan *)

Section Scan.
Variable docText : string.

Lemma charIs_true s c : charIs s c = true <-> currentChar s = Some c.
Proof. unfold charIs. apply bool_decide_eq_true. Qed.

Lemma charIs_false s c : charIs s c = false <-> currentChar s <> Some c.
Proof. unfold charIs. apply bool_decide_eq_false. Qed.

Lemma loopCondition_true s :
  loopCondition s = true <-> currentChar s <> Some JS.LF.
Proof.
  unfold loopCondition, exitChars.
  destruct (currentChar s) as [c|]; [|done].
  rewrite negb_true_iff, bool_decide_eq_false.
  rewrite !elem_of_cons, elem_of_nil.
  split.
  - intros H Hc. apply H. left. congruence.
  - intros H [Hc|[Hc|[]]]; [|discriminate]. apply H. congruence.
Qed.

Lemma initialState_reads c : stateReads docText (initialState docText c).
Proof. reflexivity. Qed.

Lemma loopBody_Next s s' :
  loopBody docText s = Next s' ->
  stateReads docText s' /\ currentPosition s' = currentPosition s - 1.
Proof.
  unfold loopBody.
  repeat case_match; intros; simplify_eq; done.
Qed.

Lemma scanSteps_add k1 k2 s :
  scanSteps (k1 + k2) docText s =
  scanSteps k1 docText s ≫= scanSteps k2 docText.
Proof.
  revert s. induction k1 as [|k1 IH]; intros s; simpl; [done|].
  destruct (loopBody docText s) as [|s']; [done|].
  destruct (loopCondition s'); [apply IH|done].
Qed.

Lemma scanSteps_succ_inv k s s2 :
  scanSteps (S k) docText s = Some s2 ->
  exists s1, scanSteps k docText s = Some s1 /\
             loopBody docText s1 = Next s2 /\ loopCondition s2 = true.
Proof.
  replace (S k) with (k + 1)%nat by lia.
  rewrite scanSteps_add.
  destruct (scanSteps k docText s) as [s1|]; simpl; [|done].
  destruct (loopBody docText s1) as [|s1'] eqn:Hb; [done|].
  destruct (loopCondition s1') eqn:Hc; [|done].
  intros; simplify_eq. eauto.
Qed.

Lemma scanSteps_position k s s' :
  scanSteps k docText s = Some s' ->
  currentPosition s' = currentPosition s - Z.of_nat k /\
  (stateReads docText s -> stateReads docText s').
Proof.
  revert s. induction k as [|k IH]; intros s; simpl.
  - intros; simplify_eq. split; [lia|done].
  - destruct (loopBody docText s) as [|s1] eqn:Hb; [done|].
    destruct (loopCondition s1); [|done].
    intros H. apply IH in H as [Hp Hr].
    apply loopBody_Next in Hb as [Hr1 Hp1].
    split; [lia|auto].
Qed.

Lemma scanLoop_steps k fuel s s' :
  scanSteps k docText s = Some s' ->
  scanLoop (k + fuel) docText s = scanLoop fuel docText s'.
Proof.
  revert s. induction k as [|k IH]; intros s; simpl.
  - by intros; simplify_eq.
  - destruct (loopBody docText s) as [|s1]; [done|].
    destruct (loopCondition s1); [apply IH|done].
Qed.

Lemma scanLoop_steps_None k fuel s s' :
  scanSteps k docText s = Some s' ->
  (fuel <= k)%nat -> scanLoop fuel docText s = None.
Proof.
  revert fuel s. induction k as [|k IH]; intros fuel s; simpl.
  - intros _ Hf. by replace fuel with O by lia.
  - destruct (loopBody docText s) as [|s1] eqn:Hb; [done|].
    destruct (loopCondition s1) eqn:Hc; [|done].
    intros H Hf. destruct fuel as [|fuel]; [done|]. simpl.
    rewrite Hb, Hc. apply (IH _ _ H). lia.
Qed.

Lemma scanLoop_more_fuel fuel fuel' s ctx :
  scanLoop fuel docText s = Some ctx ->
  (fuel <= fuel')%nat -> scanLoop fuel' docText s = Some ctx.
Proof.
  revert fuel' s. induction fuel as [|fuel IH]; intros fuel' s; [done|].
  simpl. intros H Hf.
  destruct fuel' as [|fuel']; [lia|]. simpl.
  destruct (loopBody docText s) as [|s1]; [done|].
  destruct (loopCondition s1); [|done].
  apply IH; [done|lia].
Qed.

(** Once the offset is below zero every read is [undefined] and the loop
    goes on. *)
Lemma scanLoop_before_start fuel s :
  currentPosition s < 0 -> currentChar s = None ->
  scanLoop fuel docText s = None.
Proof.
  revert s. induction fuel as [|fuel IH]; intros s Hp Hc; [done|].
  simpl. unfold loopBody, charIs. rewrite Hc.
  rewrite !bool_decide_eq_false_2 by done.
  unfold loopCondition, stepBack; simpl.
  unfold JS.charAt.
  destruct (Z.ltb_spec (currentPosition s - 1) 0); [|lia].
  apply IH; simpl; [lia|].
  unfold JS.charAt. destruct (Z.ltb_spec (currentPosition s - 1) 0); [done|lia].
Qed.

(** A character that is neither [#] nor a bracket takes the last branch
    of the body. *)
Lemma loopBody_other s :
  currentChar s <> Some "#"%char ->
  currentChar s <> Some "["%char ->
  currentChar s <> Some "]"%char ->
  loopBody docText s =
  Next (stepBack docText
    {| currentPosition := currentPosition s;
       currentChar := currentChar s;
       afterHeadingMarker := afterHeadingMarker s;
       headingMarkerPosition := headingMarkerPosition s;
       firstClosingBraceHit := false;
       firstOpeningBraceHit := false |}).
Proof.
  intros H1 H2 H3. unfold loopBody.
  apply charIs_false in H1, H2, H3. by rewrite H1, H2, H3.
Qed.

(** The heading marker after [k] steps from the cursor [c]: it is set
    exactly when a [#] was read, and then holds the offset of the
    leftmost [#] read. *)
Lemma scanSteps_marker c k s :
  scanSteps k docText (initialState docText c) = Some s ->
  if afterHeadingMarker s then
    currentPosition s < headingMarkerPosition s <= c /\
    JS.charAt docText (headingMarkerPosition s) = Some "#"%char /\
    (forall q, currentPosition s < q < headingMarkerPosition s ->
               JS.charAt docText q <> Some "#"%char)
  else
    forall q, currentPosition s < q <= c ->
              JS.charAt docText q <> Some "#"%char.
Proof.
  revert s. induction k as [|k IH]; intros s.
  - simpl. intros; simplify_eq. simpl. intros q Hq. lia.
  - intros H. apply scanSteps_succ_inv in H as (s1 & H1 & Hb & _).
    specialize (IH _ H1).
    apply scanSteps_position in H1 as [Hp Hr].
    specialize (Hr (initialState_reads c)). simpl in Hp.
    unfold stateReads in Hr.
    unfold loopBody in Hb.
    destruct (charIs s1 "#") eqn:Hh.
    { simplify_eq. simpl. apply charIs_true in Hh.
      split; [lia|]. split; [congruence|]. intros q Hq. lia. }
    apply charIs_false in Hh. rewrite Hr in Hh.
    assert (afterHeadingMarker s = afterHeadingMarker s1 /\
            headingMarkerPosition s = headingMarkerPosition s1 /\
            currentPosition s = currentPosition s1 - 1) as (Ha & Hm & Hq).
    { repeat case_match; simplify_eq; done. }
    rewrite Ha, Hm, Hq. clear Hb Ha Hm Hq.
    destruct (afterHeadingMarker s1).
    + destruct IH as (Hrange & Hc & Hleft).
      split; [lia|]. split; [done|].
      intros q Hq.
      destruct (decide (q = currentPosition s1)) as [->|]; [done|].
      apply Hleft. lia.
    + intros q Hq.
      destruct (decide (q = currentPosition s1)) as [->|]; [done|].
      apply IH. lia.
Qed.

(** A run of characters without brackets is scanned to its end with both
    bracket flags down. *)
Lemma scanSteps_segment k s :
  stateReads docText s ->
  firstOpeningBraceHit s = false -> firstClosingBraceHit s = false ->
  (forall q, currentPosition s - Z.of_nat k < q <= currentPosition s ->
             JS.charAt docText q <> Some "["%char /\
             JS.charAt docText q <> Some "]"%char) ->
  (forall q, currentPosition s - Z.of_nat k <= q < currentPosition s ->
             JS.charAt docText q <> Some JS.LF) ->
  exists s', scanSteps k docText s = Some s' /\
             firstOpeningBraceHit s' = false /\
             firstClosingBraceHit s' = false.
Proof.
  revert s. induction k as [|k IH]; intros s Hr Ho Hc Hseg Hlf.
  - exists s. done.
  - destruct (Hseg (currentPosition s)) as [Hb1 Hb2]; [lia|].
    rewrite <- Hr in Hb1, Hb2.
    assert (exists s1, loopBody docText s = Next s1 /\
              firstOpeningBraceHit s1 = false /\
              firstClosingBraceHit s1 = false) as (s1 & Hb & Ho1 & Hc1).
    { unfold loopBody. apply charIs_false in Hb1, Hb2. rewrite Hb1, Hb2.
      destruct (charIs s "#"); eexists; (split; [reflexivity|done]). }
    destruct (loopBody_Next _ _ Hb) as [Hr1 Hp1].
    destruct (IH s1) as (s' & Hs' & Ho' & Hc'); try done.
    + intros q Hq. apply Hseg. lia.
    + intros q Hq. apply Hlf. lia.
    + exists s'. split; [|done]. simpl. rewrite Hb.
      assert (loopCondition s1 = true) as ->; [|done].
      apply loopCondition_true. rewrite Hr1, Hp1. apply Hlf. lia.
Qed.

(** A run of characters that are neither [#] nor brackets is scanned to
    its end without touching the heading marker. *)
Lemma scanSteps_plain k s :
  stateReads docText s ->
  (forall q, currentPosition s - Z.of_nat k < q <= currentPosition s ->
             JS.charAt docText q <> Some "#"%char /\
             JS.charAt docText q <> Some "["%char /\
             JS.charAt docText q <> Some "]"%char) ->
  (forall q, currentPosition s - Z.of_nat k <= q < currentPosition s ->
             JS.charAt docText q <> Some JS.LF) ->
  exists s', scanSteps k docText s = Some s' /\
             afterHeadingMarker s' = afterHeadingMarker s /\
             headingMarkerPosition s' = headingMarkerPosition s /\
             firstOpeningBraceHit s' =
               match k with O => firstOpeningBraceHit s | _ => false end /\
             firstClosingBraceHit s' =
               match k with O => firstClosingBraceHit s | _ => false end.
Proof.
  revert s. induction k as [|k IH]; intros s Hr Hseg Hlf.
  - exists s. done.
  - destruct (Hseg (currentPosition s)) as (Hb0 & Hb1 & Hb2); [lia|].
    rewrite <- Hr in Hb0, Hb1, Hb2.
    pose proof (loopBody_other s Hb0 Hb1 Hb2) as Hb.
    destruct (loopBody_Next _ _ Hb) as [Hr1 Hp1].
    set (s1 := stepBack _ _) in *.
    destruct (IH s1) as (s' & Hs' & Ha & Hm & Ho & Hc); try done.
    + intros q Hq. apply Hseg. lia.
    + intros q Hq. apply Hlf. lia.
    + exists s'. simpl. rewrite Hb.
      assert (loopCondition s1 = true) as ->.
      { apply loopCondition_true. rewrite Hr1, Hp1. apply Hlf. lia. }
      rewrite Ha, Hm, Ho, Hc. split; [done|].
      destruct k; done.
Qed.

End Scan.

(** From a state that has seen a [#], across [k] characters that are
    neither [#] nor brackets, down to a pair of opening brackets. *)
Lemma scanLoop_heading_tail docText k s :
  stateReads docText s ->
  afterHeadingMarker s = true ->
  match k with O => firstOpeningBraceHit s | _ => false end = false ->
  (forall q, currentPosition s - Z.of_nat k < q <= currentPosition s ->
             JS.charAt docText q <> Some "#"%char /\
             JS.charAt docText q <> Some "["%char /\
             JS.charAt docText q <> Some "]"%char) ->
  (forall q, currentPosition s - Z.of_nat k <= q < currentPosition s ->
             JS.charAt docText q <> Some JS.LF) ->
  JS.charAt docText (currentPosition s - Z.of_nat k) = Some "["%char ->
  JS.charAt docText (currentPosition s - Z.of_nat k - 1) = Some "["%char ->
  scanLoop (k + 2) docText s =
  Some (HeadingLinkContext
          (JS.substring docText (currentPosition s - Z.of_nat k + 1)
                        (headingMarkerPosition s))).
Proof.
  intros Hr Ha Ho Hseg Hlf Hb1 Hb2.
  destruct (scanSteps_plain docText k s Hr Hseg Hlf)
    as (s3 & Hs3 & Ha3 & Hm3 & Ho3 & _).
  rewrite (scanLoop_steps _ _ _ _ _ Hs3).
  apply scanSteps_position in Hs3 as [Hp3 Hr3]. specialize (Hr3 Hr).
  rewrite Ho in Ho3. rewrite Ha in Ha3.
  unfold stateReads in Hr3. rewrite Hp3, Hb1 in Hr3.
  simpl. unfold loopBody at 1.
  rewrite (proj2 (charIs_false s3 "#")) by (rewrite Hr3; done).
  rewrite (proj2 (charIs_true s3 "[")) by done.
  rewrite Ho3.
  set (s4 := stepBack _ _).
  assert (currentChar s4 = Some "["%char) as Hc4.
  { subst s4. simpl. rewrite Hp3. done. }
  rewrite (proj2 (loopCondition_true s4)) by (rewrite Hc4; done).
  unfold loopBody.
  rewrite (proj2 (charIs_false s4 "#")) by (rewrite Hc4; done).
  rewrite (proj2 (charIs_true s4 "[")) by done.
  subst s4. simpl. rewrite Ha3, Hm3, Hp3.
  do 3 f_equal. lia.
Qed.

(** A scan that is still running when its offset has gone below zero never
    returns: there is no exit at the start of the buffer. *)
Lemma scan_reaching_buffer_start_never_returns docText c k s :
  scanSteps k docText (initialState docText c) = Some s ->
  currentPosition s < 0 ->
  forall fuel, linkContextScan fuel docText c = None.
Proof.
  intros Hs Hp fuel. unfold linkContextScan.
  destruct (Nat.le_gt_cases fuel k) as [Hle|Hgt].
  - by apply (scanLoop_steps_None docText k fuel _ s).
  - replace fuel with (k + (fuel - k))%nat by lia.
    rewrite (scanLoop_steps _ _ _ _ _ Hs).
    apply scanLoop_before_start; [done|].
    apply scanSteps_position in Hs as [_ Hr].
    rewrite (Hr (initialState_reads docText c)).
    unfold JS.charAt. by rewrite (proj2 (Z.ltb_lt _ _) Hp).
Qed.

Example scan_first_line_reaches_buffer_start :
  exists s, scanSteps 4 "abc" (initialState "abc" 3) = Some s /\
            currentPosition s = -1 /\
            forall fuel, linkContextScan fuel "abc" 3 = None.
Proof.
  eexists. split; [reflexivity|]. split; [reflexivity|].
  by apply (scan_reaching_buffer_start_never_returns "abc" 3 4 _ eq_refl).
Qed.

(** C1. The scan started at cursor offset 0 never returns, whatever the
    text: the first execution of the body cannot return, the next read is
    at offset -1 and yields [undefined], which is not an exit character,
    and from then on every read is before the start of the buffer. For
    every bound on the number of loop iterations the handler is still
    running; it does not terminate with the empty list. *)
Theorem scan_at_offset_zero_never_returns (docText : string) (fuel : nat) :
  linkContextScan fuel docText 0 = None /\
  forall notes docUri,
    onCompletion fuel notes (Some {| uri := docUri; getText := docText |}) 0
    = None.
Proof.
  assert (linkContextScan fuel docText 0 = None) as H.
  { unfold linkContextScan. destruct fuel as [|fuel]; [done|].
    simpl.
    assert (exists s1, loopBody docText (initialState docText 0) = Next s1)
      as [s1 Hb].
    { unfold loopBody. simpl. repeat case_match; eauto. }
    rewrite Hb. destruct (loopBody_Next _ _ _ Hb) as [Hr Hp].
    simpl in Hp. unfold stateReads in Hr. rewrite Hp in Hr. simpl in Hr.
    unfold loopCondition. rewrite Hr.
    apply scanLoop_before_start; [lia|done]. }
  split; [done|].
  intros notes docUri. simpl. by rewrite H.
Qed.

(** A scan still running after [k + 1] steps that reads a [[] directly to
    the left of a [[] it has read returns there. *)
Lemma scanLoop_at_open_pair docText c k s :
  scanSteps (S k) docText (initialState docText c) = Some s ->
  currentChar s = Some "["%char ->
  JS.charAt docText (currentPosition s + 1) = Some "["%char ->
  forall fuel, (S (S k) <= fuel)%nat ->
    linkContextScan fuel docText c =
    Some (if afterHeadingMarker s
          then HeadingLinkContext
                 (JS.substring docText (currentPosition s + 2)
                               (headingMarkerPosition s))
          else FileLinkContext).
Proof.
  intros Hs Hc Hn fuel Hf.
  apply (scanLoop_more_fuel docText (S k + 1)); [|lia].
  unfold linkContextScan. rewrite (scanLoop_steps _ _ _ _ _ Hs).
  apply scanSteps_succ_inv in Hs as (s1 & H1 & Hb & _).
  apply scanSteps_position in H1 as [_ Hr1].
  specialize (Hr1 (initialState_reads docText c)).
  destruct (loopBody_Next _ _ _ Hb) as [_ Hp].
  unfold stateReads in Hr1.
  replace (currentPosition s + 1) with (currentPosition s1) in Hn by lia.
  rewrite <- Hr1 in Hn.
  assert (firstOpeningBraceHit s = true) as Ho.
  { unfold loopBody in Hb.
    rewrite (proj2 (charIs_false s1 "#")) in Hb by (rewrite Hn; done).
    rewrite (proj2 (charIs_true s1 "[")) in Hb by done.
    repeat case_match; simplify_eq; done. }
  simpl. unfold loopBody.
  rewrite (proj2 (charIs_false s "#")) by (rewrite Hc; done).
  rewrite (proj2 (charIs_true s "[")) by done.
  rewrite Ho. by destruct (afterHeadingMarker s).
Qed.

(** C4 (amended). When the scan, still running after [k + 1] steps, reads
    a [[] directly to the left of a [[] it has already read, it returns
    there: the heading-link context whose identifier is the substring from
    the offset of that second-read bracket (the current offset) plus 2 up
    to the marker offset when a [#] was read before, the file-link context
    otherwise; and a [#] was read before exactly when the marker flag is
    set, the marker offset then being the leftmost [#] read. *)
Theorem open_pair_classification (docText : string) (c : Z) (k : nat)
    (s : ScanState) :
  scanSteps (S k) docText (initialState docText c) = Some s ->
  currentChar s = Some "["%char ->
  JS.charAt docText (currentPosition s + 1) = Some "["%char ->
  (forall fuel, (S (S k) <= fuel)%nat ->
     linkContextScan fuel docText c =
     Some (if afterHeadingMarker s
           then HeadingLinkContext
                  (JS.substring docText (currentPosition s + 2)
                                (headingMarkerPosition s))
           else FileLinkContext)) /\
  (if afterHeadingMarker s then
     currentPosition s < headingMarkerPosition s <= c /\
     JS.charAt docText (headingMarkerPosition s) = Some "#"%char /\
     (forall q, currentPosition s < q < headingMarkerPosition s ->
                JS.charAt docText q <> Some "#"%char)
   else
     forall q, currentPosition s < q <= c ->
               JS.charAt docText q <> Some "#"%char).
Proof.
  intros Hs Hc Hn. split.
  - by apply scanLoop_at_open_pair.
  - by apply (scanSteps_marker docText c (S k)).
Qed.

(** C6. When the scan, still running after [k] steps, reads a []] whose
    left neighbour is a []] too, it returns the empty classification at
    one of the two. *)
Theorem closed_pair_no_context (docText : string) (c : Z) (k : nat)
    (s : ScanState) :
  scanSteps k docText (initialState docText c) = Some s ->
  currentChar s = Some "]"%char ->
  JS.charAt docText (currentPosition s - 1) = Some "]"%char ->
  forall fuel, (k + 2 <= fuel)%nat ->
    linkContextScan fuel docText c = Some NoContext.
Proof.
  intros Hs Hc Hn fuel Hf.
  apply (scanLoop_more_fuel docText (k + 2)); [|done].
  unfold linkContextScan. rewrite (scanLoop_steps _ _ _ _ _ Hs).
  simpl. unfold loopBody at 1.
  rewrite (proj2 (charIs_false s "#")) by (rewrite Hc; done).
  rewrite (proj2 (charIs_false s "[")) by (rewrite Hc; done).
  rewrite (proj2 (charIs_true s "]")) by done.
  destruct (firstClosingBraceHit s); [done|].
  set (s1 := stepBack _ _).
  assert (currentChar s1 = Some "]"%char) as Hc1 by done.
  rewrite (proj2 (loopCondition_true s1)) by (rewrite Hc1; done).
  unfold loopBody.
  rewrite (proj2 (charIs_false s1 "#")) by (rewrite Hc1; done).
  rewrite (proj2 (charIs_false s1 "[")) by (rewrite Hc1; done).
  rewrite (proj2 (charIs_true s1 "]")) by done.
  done.
Qed.

(** C7. On a character other than [#], [[] and []] (an out-of-range read
    included) one execution of the body lowers both bracket flags, leaves
    the heading-marker flag and offset as they were and steps one offset
    back. Consequently, from a state that has seen a [#], across [k >= 1]
    such characters of the same line down to a pair of opening brackets,
    the scan returns the heading-link context whose identifier runs from
    after the pair to the marker offset. *)
Theorem other_character_keeps_heading_marker (docText : string)
    (s : ScanState) :
  (currentChar s <> Some "#"%char ->
   currentChar s <> Some "["%char ->
   currentChar s <> Some "]"%char ->
   exists s', loopBody docText s = Next s' /\
              firstOpeningBraceHit s' = false /\
              firstClosingBraceHit s' = false /\
              afterHeadingMarker s' = afterHeadingMarker s /\
              headingMarkerPosition s' = headingMarkerPosition s /\
              currentPosition s' = currentPosition s - 1) /\
  (forall k : nat,
     (0 < k)%nat ->
     stateReads docText s ->
     afterHeadingMarker s = true ->
     (forall q, currentPosition s - Z.of_nat k < q <= currentPosition s ->
                JS.charAt docText q <> Some "#"%char /\
                JS.charAt docText q <> Some "["%char /\
                JS.charAt docText q <> Some "]"%char) ->
     (forall q, currentPosition s - Z.of_nat k <= q < currentPosition s ->
                JS.charAt docText q <> Some JS.LF) ->
     JS.charAt docText (currentPosition s - Z.of_nat k) = Some "["%char ->
     JS.charAt docText (currentPosition s - Z.of_nat k - 1) = Some "["%char ->
     forall fuel, (k + 2 <= fuel)%nat ->
       scanLoop fuel docText s =
       Some (HeadingLinkContext
               (JS.substring docText (currentPosition s - Z.of_nat k + 1)
                             (headingMarkerPosition s)))).
Proof.
  split.
  - intros H1 H2 H3. eexists. split; [by apply loopBody_other|done].
  - intros k Hk Hr Ha Hseg Hlf Hb1 Hb2 fuel Hf.
    apply (scanLoop_more_fuel docText (k + 2)); [|done].
    apply scanLoop_heading_tail; try done.
    destruct k; [lia|done].
Qed.

(** A pair of opening brackets at offsets [p] and [p + 1], a [#] at offset
    [m] with no [#] and no bracket between the pair and [m], and no
    bracket between [m] and the cursor: the scan reaches the pair and
    returns the text between the pair and [m]. *)
Lemma scan_to_leftmost_hash (docText : string) (c p m : Z) :
  JS.charAt docText p = Some "["%char ->
  JS.charAt docText (p + 1) = Some "["%char ->
  p + 1 < m <= c ->
  JS.charAt docText m = Some "#"%char ->
  (forall q, p + 1 < q < m ->
             JS.charAt docText q <> Some "#"%char /\
             JS.charAt docText q <> Some "["%char /\
             JS.charAt docText q <> Some "]"%char) ->
  (forall q, m < q <= c ->
             JS.charAt docText q <> Some "["%char /\
             JS.charAt docText q <> Some "]"%char) ->
  (forall q, p <= q < c -> JS.charAt docText q <> Some JS.LF) ->
  forall fuel, (Z.to_nat (c - p) < fuel)%nat ->
    linkContextScan fuel docText c =
    Some (HeadingLinkContext (JS.substring docText (p + 2) m)).
Proof.
  intros Hp Hp1 Hm Hh Hname Hrest Hlf fuel Hf.
  set (k1 := Z.to_nat (c - m)). set (k2 := Z.to_nat (m - p - 2)).
  apply (scanLoop_more_fuel docText (k1 + (1 + (k2 + 2)))); [|lia].
  unfold linkContextScan.
  destruct (scanSteps_segment docText k1 (initialState docText c))
    as (s1 & Hs1 & Ho1 & Hc1); try done.
  { simpl. intros q Hq. apply Hrest. lia. }
  { simpl. intros q Hq. apply Hlf. lia. }
  rewrite (scanLoop_steps _ _ _ _ _ Hs1).
  apply scanSteps_position in Hs1 as [Hq1 Hr1].
  specialize (Hr1 (initialState_reads docText c)). simpl in Hq1.
  assert (currentPosition s1 = m) as Hpos1 by lia. clear Hq1.
  unfold stateReads in Hr1. rewrite Hpos1, Hh in Hr1.
  change (scanLoop (1 + (k2 + 2)) docText s1)
    with (scanLoop (S (k2 + 2)) docText s1).
  simpl scanLoop at 1. unfold loopBody at 1.
  rewrite (proj2 (charIs_true s1 "#")) by done.
  set (s2 := stepBack _ _).
  assert (stateReads docText s2) as Hr2 by done.
  assert (currentPosition s2 = m - 1) as Hpos2 by (subst s2; simpl; lia).
  rewrite (proj2 (loopCondition_true s2)).
  2:{ rewrite Hr2, Hpos2. apply Hlf. lia. }
  rewrite (scanLoop_heading_tail docText k2 s2); try done.
  - rewrite Hpos2. subst s2. simpl. rewrite Hpos1. do 3 f_equal. lia.
  - destruct k2; [|done]. subst s2. simpl. done.
  - rewrite Hpos2. intros q Hq. apply Hname. lia.
  - rewrite Hpos2. intros q Hq. apply Hlf. lia.
  - rewrite Hpos2. replace (m - 1 - Z.of_nat k2) with (p + 1) by lia. done.
  - rewrite Hpos2. replace (m - 1 - Z.of_nat k2 - 1) with p by lia. done.
Qed.

(** C9. When the scan terminates on a pair of opening brackets and one or
    more [#] lie between the pair and the cursor, the identifier extends
    from just after the pair up to the leftmost such [#], at offset [m]:
    every [#] read later in the backward scan overwrites the marker
    offset. And the scan does terminate on the pair when, on the cursor
    line, no [#] and no bracket lies between the pair and [m] and no
    bracket between [m] and the cursor. *)
Theorem identifier_ends_at_leftmost_hash (docText : string) (c m : Z) :
  (forall (k : nat) (s : ScanState),
     scanSteps (S k) docText (initialState docText c) = Some s ->
     currentChar s = Some "["%char ->
     JS.charAt docText (currentPosition s + 1) = Some "["%char ->
     currentPosition s < m <= c ->
     JS.charAt docText m = Some "#"%char ->
     (forall q, currentPosition s < q < m ->
                JS.charAt docText q <> Some "#"%char) ->
     forall fuel, (S (S k) <= fuel)%nat ->
       linkContextScan fuel docText c =
       Some (HeadingLinkContext
               (JS.substring docText (currentPosition s + 2) m))) /\
  (forall p : Z,
     JS.charAt docText p = Some "["%char ->
     JS.charAt docText (p + 1) = Some "["%char ->
     p + 1 < m <= c ->
     JS.charAt docText m = Some "#"%char ->
     (forall q, p + 1 < q < m ->
                JS.charAt docText q <> Some "#"%char /\
                JS.charAt docText q <> Some "["%char /\
                JS.charAt docText q <> Some "]"%char) ->
     (forall q, m < q <= c ->
                JS.charAt docText q <> Some "["%char /\
                JS.charAt docText q <> Some "]"%char) ->
     (forall q, p <= q < c -> JS.charAt docText q <> Some JS.LF) ->
     forall fuel, (Z.to_nat (c - p) < fuel)%nat ->
       linkContextScan fuel docText c =
       Some (HeadingLinkContext (JS.substring docText (p + 2) m))).
Proof.
  split.
  - intros k s Hs Hc Hn Hm Hh Hleft fuel Hf.
    rewrite (scanLoop_at_open_pair docText c k s Hs Hc Hn fuel Hf).
    pose proof (scanSteps_marker docText c (S k) s Hs) as Hmark.
    destruct (afterHeadingMarker s).
    + destruct Hmark as (Hrange & Hchar & Hmin).
      assert (headingMarkerPosition s = m) as ->; [|done].
      destruct (Z.lt_trichotomy (headingMarkerPosition s) m) as [Hlt|[Heq|Hgt]].
      * destruct (Hleft (headingMarkerPosition s)); [lia|done].
      * done.
      * destruct (Hmin m); [lia|done].
    + destruct (Hmark m); [lia|done].
  - intros p. apply scan_to_leftmost_hash.
Qed.

Example scan_file_link :
  linkContextScan 20 "See [[Note" 10 = Some FileLinkContext.
Proof. reflexivity. Qed.

Example scan_heading_link :
  linkContextScan 20 "See [[Note#Head" 16 = Some (HeadingLinkContext "Note").
Proof. reflexivity. Qed.

Example scan_closed_link :
  linkContextScan 20 "[[Note]] more" 13 = Some NoContext.
Proof. reflexivity. Qed.

Example scan_separated_marker :
  linkContextScan 20 "[[A# b c" 8 = Some (HeadingLinkContext "A").
Proof. reflexivity. Qed.

Example scan_first_line_out_of_fuel :
  linkContextScan 1000 "abc" 3 = None.
Proof. vm_compute. reflexivity. Qed.

Lemma open_pair_classification_witness :
  scanSteps 12 "See [[Note#Head" (initialState "See [[Note#Head" 16)
    = Some headingLinkFinalState /\
  linkContextScan 13 "See [[Note#Head" 16 = Some (HeadingLinkContext "Note").
Proof.
  split; [reflexivity|].
  exact (proj1 (open_pair_classification "See [[Note#Head" 16 11
                  headingLinkFinalState eq_refl eq_refl eq_refl)
               13%nat (le_n _)).
Defined.

(** C4, as stated, fails: the identifier does not start two offsets after
    the bracket of the pair that was read first (the right one, at offset
    5 in ["See [[Note#Head"]), which would give ["ote"]; the handler
    returns ["Note"]. *)
Lemma open_pair_identifier_not_from_first_read_bracket :
  ~ (forall (docText : string) (c : Z) (k : nat) (s : ScanState),
       scanSteps (S k) docText (initialState docText c) = Some s ->
       currentChar s = Some "["%char ->
       JS.charAt docText (currentPosition s + 1) = Some "["%char ->
       afterHeadingMarker s = true ->
       linkContextScan (S (S k)) docText c =
       Some (HeadingLinkContext
               (JS.substring docText ((currentPosition s + 1) + 2)
                             (headingMarkerPosition s)))).
Proof.
  intros H.
  specialize (H "See [[Note#Head" 16 11%nat headingLinkFinalState
                eq_refl eq_refl eq_refl eq_refl).
  vm_compute in H. discriminate H.
Qed.

Lemma closed_pair_no_context_witness :
  scanSteps 6 "[[Note]] more" (initialState "[[Note]] more" 13)
    = Some closedLinkState /\
  linkContextScan 8 "[[Note]] more" 13 = Some NoContext.
Proof.
  split; [reflexivity|].
  exact (closed_pair_no_context "[[Note]] more" 13 6 closedLinkState
           eq_refl eq_refl eq_refl 8%nat (le_n _)).
Defined.

Lemma other_character_keeps_heading_marker_witness :
  scanSteps 6 "[[A# b c" (initialState "[[A# b c" 8) = Some afterMarkerState /\
  (exists s', loopBody "[[A# b c" afterMarkerState = Next s' /\
              firstOpeningBraceHit s' = false /\
              firstClosingBraceHit s' = false /\
              afterHeadingMarker s' = true /\
              headingMarkerPosition s' = 3 /\
              currentPosition s' = 1) /\
  scanLoop 3 "[[A# b c" afterMarkerState = Some (HeadingLinkContext "A").
Proof.
  split; [reflexivity|].
  destruct (other_character_keeps_heading_marker "[[A# b c" afterMarkerState)
    as [Hstep Hscan].
  split.
  - apply Hstep; discriminate.
  - apply (Hscan 1%nat); try reflexivity; try lia.
    + intros q Hq. simpl in Hq. each_offset q Hq.
    + intros q Hq. simpl in Hq. each_offset q Hq.
Defined.

Lemma identifier_ends_at_leftmost_hash_witness :
  scanSteps 7 "[[A#B#C" (initialState "[[A#B#C" 7) = Some leftmostHashState /\
  linkContextScan 8 "[[A#B#C" 7 = Some (HeadingLinkContext "A") /\
  linkContextScan 9 "[[A#B#C" 7 = Some (HeadingLinkContext "A").
Proof.
  destruct (identifier_ends_at_leftmost_hash "[[A#B#C" 7 3) as [Hreach Htext].
  split; [reflexivity|]. split.
  - apply (Hreach 6%nat leftmostHashState); try reflexivity; try (simpl; lia).
    intros q Hq. simpl in Hq. each_offset q Hq.
  - apply (Htext 0); try reflexivity; try lia.
    + intros q Hq. each_offset q Hq.
    + intros q Hq. each_offset q Hq.
    + intros q Hq. each_offset q Hq.
Defined.

(** ** Heading extraction *)

Example splitLines_joinLines :
  JS.splitLines (joinLines ["# A"; "## B"; "text"; "### C  "])
  = ["# A"; "## B"; "text"; "### C  "].
Proof. reflexivity. Qed.

(** A search of the shared expression that starts to the right of index 0
    fails whatever the line, and resets [lastIndex]. *)
Lemma regexExec_after_match lastIndex line :
  lastIndex <> O -> regexExec lastIndex line = (None, O).
Proof.
  intros H. unfold regexExec.
  destruct (Nat.eqb_spec lastIndex 0); [done|reflexivity].
Qed.

(** Every heading stored in a note has level 1. *)
Lemma headingsOfTitles_level titles :
  Forall (fun h => level h = 1) (headingsOfTitles titles).
Proof.
  unfold headingsOfTitles. apply Forall_fmap, Forall_true. done.
Qed.

(** C2. On the text of the lines [# A], [## B], [text] and [### C] with
    two trailing spaces, the extraction yields the titles ["A"] and
    ["## C"], not ["A"], ["B"], ["C"]: the line after a matching line is
    searched from the end offset of the previous match, where [^] cannot
    hold, so [## B] is dropped; and the replacement removes only the first
    [#] of the match. A lone line [## B] yields the title ["# B"]. The
    levels are all 1. *)
Theorem headings_of_pinned_text :
  findHeadingsInDocument (joinLines ["# A"; "## B"; "text"; "### C  "])
    = ["A"; "## C"] /\
  headingsOfTitles
    (findHeadingsInDocument (joinLines ["# A"; "## B"; "text"; "### C  "]))
    = [{| title := "A"; level := 1 |}; {| title := "## C"; level := 1 |}] /\
  findHeadingsInDocument "## B" = ["# B"].
Proof. repeat split; reflexivity. Qed.

(** ** The note index *)

Lemma upsertNote_nil name hs :
  upsertNote name hs [] = [{| filename := name; headings := hs |}].
Proof. reflexivity. Qed.

Lemma upsertNote_cons name hs x notes :
  upsertNote name hs (x :: notes) =
  if decide (filename x = name)
  then {| filename := filename x; headings := hs |} :: notes
  else x :: upsertNote name hs notes.
Proof.
  unfold upsertNote. simpl.
  destruct (decide (filename x = name)); [done|].
  destruct (list_find _ notes) as [[i y]|]; done.
Qed.

Lemma upsertNote_filenames name hs notes :
  filename <$> upsertNote name hs notes =
  if decide (name ∈ filename <$> notes) then filename <$> notes
  else (filename <$> notes) ++ [name].
Proof.
  induction notes as [|x notes IH].
  - rewrite upsertNote_nil. simpl.
    destruct (decide (name ∈ [])) as [H|]; [|done].
    by apply elem_of_nil in H.
  - rewrite upsertNote_cons. rewrite fmap_cons.
    destruct (decide (filename x = name)) as [Hx|Hx].
    + rewrite decide_True by (rewrite Hx; left). done.
    + rewrite fmap_cons, IH.
      destruct (decide (name ∈ filename <$> notes)) as [Hin|Hin].
      * rewrite decide_True by (by right). done.
      * rewrite decide_False; [done|].
        intros [?|?]%elem_of_cons; [congruence|done].
Qed.

Lemma upsertNote_NoDup name hs notes :
  NoDup (filename <$> notes) -> NoDup (filename <$> upsertNote name hs notes).
Proof.
  intros H. rewrite upsertNote_filenames.
  destruct (decide _) as [|Hn]; [done|].
  apply NoDup_app. split; [done|]. split.
  - intros y Hy ->%list_elem_of_singleton. done.
  - apply NoDup_singleton.
Qed.

Lemma upsertNote_filter_other name name' hs notes :
  name <> name' ->
  filter (fun note => filename note = name') (upsertNote name hs notes) =
  filter (fun note => filename note = name') notes.
Proof.
  intros Hne. induction notes as [|x notes IH].
  - rewrite upsertNote_nil. rewrite filter_cons_False by done. done.
  - rewrite upsertNote_cons.
    destruct (decide (filename x = name)) as [Hx|Hx].
    + rewrite !filter_cons_False; simpl; congruence.
    + rewrite !filter_cons, IH. done.
Qed.

Lemma filter_filename_absent name notes :
  name ∉ filename <$> notes ->
  filter (fun note => filename note = name) notes = [].
Proof.
  intros H. induction notes as [|x notes IH]; [done|].
  rewrite fmap_cons, not_elem_of_cons in H. destruct H as [H1 H2].
  rewrite filter_cons_False by congruence. auto.
Qed.

Lemma upsertNote_filter_same name hs notes :
  NoDup (filename <$> notes) ->
  filter (fun note => filename note = name) (upsertNote name hs notes) =
  [{| filename := name; headings := hs |}].
Proof.
  induction notes as [|x notes IH]; intros Hnd.
  - rewrite upsertNote_nil. by rewrite filter_cons_True.
  - rewrite fmap_cons in Hnd. apply NoDup_cons in Hnd as [Hx Hnd].
    rewrite upsertNote_cons.
    destruct (decide (filename x = name)) as [Hn|Hn].
    + rewrite filter_cons_True by done.
      rewrite filter_filename_absent by congruence. by rewrite Hn.
    + rewrite filter_cons_False by done. auto.
Qed.

Lemma upsertNote_absent name hs notes :
  name ∉ filename <$> notes ->
  upsertNote name hs notes = notes ++ [{| filename := name; headings := hs |}].
Proof.
  intros H. induction notes as [|x notes IH]; [done|].
  rewrite fmap_cons, not_elem_of_cons in H. destruct H as [H1 H2].
  rewrite upsertNote_cons, decide_False by congruence.
  rewrite IH by done. done.
Qed.

Lemma upsertAll_snoc ops op notes :
  upsertAll (ops ++ [op]) notes = upsertNote op.1 op.2 (upsertAll ops notes).
Proof. unfold upsertAll. by rewrite foldl_snoc. Qed.

Lemma lastUpsert_snoc name ops n hs :
  lastUpsert name (ops ++ [(n, hs)]) =
  if bool_decide (n = name) then Some hs else lastUpsert name ops.
Proof.
  induction ops as [|[n' hs'] ops IH]; simpl.
  - done.
  - rewrite IH. destruct (bool_decide (n = name)); [done|].
    done.
Qed.

Lemma upsertAll_NoDup ops : NoDup (filename <$> upsertAll ops []).
Proof.
  induction ops as [|op ops IH] using rev_ind.
  - apply NoDup_nil_2.
  - rewrite upsertAll_snoc. by apply upsertNote_NoDup.
Qed.

(** Two changes of the same document, one after the other: the index holds
    one note for it, with the headings of the second text. *)
Lemma addNoteToList_replaces rootUri ext d1 d2 notes :
  NoDup (filename <$> notes) ->
  uri d1 = uri d2 ->
  filter (fun note => filename note = noteFilename rootUri ext (uri d2))
         (addNoteToList rootUri ext d2 (addNoteToList rootUri ext d1 notes)) =
  [{| filename := noteFilename rootUri ext (uri d2);
      headings := headingsOfTitles (findHeadingsInDocument (getText d2)) |}].
Proof.
  intros Hnd Huri. unfold addNoteToList.
  by apply upsertNote_filter_same, upsertNote_NoDup.
Qed.

(** C3. After any sequence of upserts into the empty index, the note
    identifiers are pairwise distinct; the notes with a given identifier
    are exactly one note holding the headings of the most recent upsert of
    that identifier (none when it was never upserted); an upsert of an
    absent identifier appends a note, and an upsert of a present one keeps
    the identifiers and their order. *)
Theorem note_index_upsert (ops : list (string * list Heading)) :
  NoDup (filename <$> upsertAll ops []) /\
  (forall name,
     filter (fun note => filename note = name) (upsertAll ops []) =
     match lastUpsert name ops with
     | Some hs => [{| filename := name; headings := hs |}]
     | None => []
     end) /\
  (forall name hs,
     name ∉ filename <$> upsertAll ops [] ->
     upsertNote name hs (upsertAll ops []) =
     upsertAll ops [] ++ [{| filename := name; headings := hs |}]) /\
  (forall name hs,
     name ∈ filename <$> upsertAll ops [] ->
     filename <$> upsertNote name hs (upsertAll ops []) =
     filename <$> upsertAll ops []).
Proof.
  split; [apply upsertAll_NoDup|]. split; [|split].
  - induction ops as [|[n hs] ops IH] using rev_ind; intros name; [done|].
    rewrite upsertAll_snoc, lastUpsert_snoc. simpl.
    destruct (bool_decide_reflect (n = name)) as [->|Hne].
    + apply upsertNote_filter_same, upsertAll_NoDup.
    + rewrite upsertNote_filter_other by done. apply IH.
  - intros name hs. apply upsertNote_absent.
  - intros name hs Hin. rewrite upsertNote_filenames.
    by rewrite decide_True.
Qed.

Lemma note_index_upsert_witness :
  let ops := [("a", headingsOfTitles ["x"]); ("b", []);
              ("a", headingsOfTitles ["y"; "z"])] in
  upsertAll ops [] =
    [{| filename := "a"; headings := headingsOfTitles ["y"; "z"] |};
     {| filename := "b"; headings := [] |}] /\
  upsertNote "c" [] (upsertAll ops []) =
    upsertAll ops [] ++ [{| filename := "c"; headings := [] |}] /\
  filename <$> upsertNote "b" (headingsOfTitles ["w"]) (upsertAll ops []) =
    ["a"; "b"].
Proof.
  intros ops. split; [reflexivity|].
  destruct (note_index_upsert ops) as (_ & _ & Habsent & Hpresent).
  split.
  - apply Habsent. vm_compute. intros H. by repeat apply elem_of_cons in H as [?|H]; [..|apply elem_of_nil in H].
  - apply (Hpresent "b"). vm_compute. apply elem_of_cons; right. apply elem_of_cons; by left.
Defined.

(** ** Completion entries *)

Lemma fileCompletionResults_fields notes :
  Forall (fun item : CompletionItem =>
            (exists l, item !! "label" = Some (JSString l)) /\
            item !! "kind" = Some (JSNumber CompletionItemKind_Text) /\
            (exists n, item !! "data" = Some (JSNumber n)))
         (fileCompletionResults notes).
Proof.
  apply Forall_lookup. intros i item.
  unfold fileCompletionResults. rewrite list_lookup_imap.
  destruct (notes !! i) as [note|]; simpl; [|done].
  intros; simplify_eq. split; [by eexists|]. split; [done|by eexists].
Qed.

(** C8. The entries of the file-completion list hold a string [label],
    [kind] equal to the text completion kind and an integer [data]. The
    entries of the heading-completion list hold [label] and [data] but no
    field [kind]: the kind is stored under the field name [king]. *)
Theorem heading_completion_entries_lack_kind (notes : list Note)
    (name : string) :
  Forall (fun item : CompletionItem =>
            (exists l, item !! "label" = Some (JSString l)) /\
            item !! "kind" = Some (JSNumber CompletionItemKind_Text) /\
            (exists n, item !! "data" = Some (JSNumber n)))
         (fileCompletionResults notes) /\
  Forall (fun item : CompletionItem =>
            (exists l, item !! "label" = Some (JSString l)) /\
            item !! "kind" = None /\
            item !! "king" = Some (JSNumber CompletionItemKind_Text) /\
            (exists n, item !! "data" = Some (JSNumber n)))
         (headerCompletionResults notes name).
Proof.
  split; [apply fileCompletionResults_fields|].
  unfold headerCompletionResults.
  destruct (list_find _ notes) as [[j note]|]; [|done].
  apply Forall_lookup. intros i item. rewrite list_lookup_imap.
  destruct (headings note !! i) as [h|]; simpl; [|done].
  intros; simplify_eq.
  split; [by eexists|]. split; [done|]. split; [done|by eexists].
Qed.

(** A completion request inside [[[Note#]: the one entry returned has no
    field [kind]. *)
Example heading_completion_request :
  exists item,
    onCompletion 10
      [{| filename := "Note"; headings := headingsOfTitles ["Head"] |}]
      (Some {| uri := "Other.txt"; getText := "[[Note#" |}) 7 = Some [item] /\
    item !! "label" = Some (JSString "Head") /\
    item !! "data" = Some (JSNumber 0) /\
    item !! "kind" = None.
Proof. eexists. repeat split; reflexivity. Qed.

(** ** The resolve handler *)

(** C10. An item whose [data] is neither the number 1 nor the number 2 is
    returned as it is; for every item, every field other than [detail]
    and [documentation] (so [label], [kind] and [data]) is returned as it
    is. *)
Theorem resolve_frame (item : CompletionItem) :
  (item !! "data" <> Some (JSNumber 1) ->
   item !! "data" <> Some (JSNumber 2) ->
   onCompletionResolve item = item) /\
  (forall field : string,
     field <> "detail" -> field <> "documentation" ->
     onCompletionResolve item !! field = item !! field).
Proof.
  unfold onCompletionResolve. split.
  - intros H1 H2. by rewrite !bool_decide_eq_false_2.
  - intros field Hd Hdoc.
    repeat case_bool_decide; rewrite ?lookup_insert_ne; done.
Qed.

Lemma resolve_frame_witness :
  let plain : CompletionItem :=
    {[ "label" := JSString "Note"; "kind" := JSNumber 1; "data" := JSNumber 0 ]} in
  let second : CompletionItem :=
    {[ "label" := JSString "Other"; "kind" := JSNumber 1; "data" := JSNumber 1 ]} in
  onCompletionResolve plain = plain /\
  onCompletionResolve second !! "label" = Some (JSString "Other") /\
  onCompletionResolve second !! "kind" = Some (JSNumber 1) /\
  onCompletionResolve second !! "data" = Some (JSNumber 1) /\
  onCompletionResolve second !! "detail" = Some (JSString "TypeScript details").
Proof.
  intros plain second.
  split; [apply (proj1 (resolve_frame plain)); discriminate|].
  pose proof (proj2 (resolve_frame second)) as H.
  split; [rewrite (H "label"); [reflexivity|discriminate|discriminate]|].
  split; [rewrite (H "kind"); [reflexivity|discriminate|discriminate]|].
  split; [rewrite (H "data"); [reflexivity|discriminate|discriminate]|].
  reflexivity.
Defined.

(** ** The directory walk *)

(** Induction on a directory tree, with the property for every entry of a
    directory at hand. *)
Lemma DirEntry_tree_ind (P : DirEntry -> Prop) :
  P RegularFile -> P SymbolicLink ->
  (forall files, Forall (fun entry => P entry.2) files -> P (Directory files)) ->
  P UnreadableDirectory -> P Inaccessible ->
  forall d, P d.
Proof.
  intros Hfile Hlink Hdir Hunreadable Hgone. fix IH 1.
  intros [| |files| |]; [done|done| |done|done].
  apply Hdir. induction files as [|[name file] files IHfiles].
  - constructor.
  - constructor; [apply IH|apply IHfiles].
Qed.

Lemma markdownFiles_Some_inv dir d files :
  markdownFiles dir d = Some files -> exists entries, d = Directory entries.
Proof. destruct d; try discriminate. by eexists. Qed.

Lemma forEachFile_agrees dir files :
  Forall (fun entry => walkAgrees entry.2) files ->
  forall count allFiles listed hit,
    fst <$> (forEachFileTraced getAllFilesTraced dir files count allFiles
               listed hit).1
    = forEachFile getAllFiles dir files count allFiles /\
    ((forEachFileTraced getAllFilesTraced dir files count allFiles
        listed hit).2 = false -> hit = false) /\
    (forall out listed',
       (forEachFileTraced getAllFilesTraced dir files count allFiles
          listed hit).1 = Some (out, listed') ->
       exists more new,
         out = allFiles ++ more /\ listed' = listed ++ new /\
         forEachMarkdown markdownFiles dir new = Some more /\
         Forall2 (fun entry entry' =>
                    entry.1 = entry'.1 /\ emptied entry.2 entry'.2) files new /\
         ((forEachFileTraced getAllFilesTraced dir files count allFiles
             listed hit).2 = false -> new = files) /\
         (forall all, forEachMarkdown markdownFiles dir files = Some all ->
                      more `sublist_of` all)) /\
    ((forEachFileTraced getAllFilesTraced dir files count allFiles
        listed hit).1 = None ->
     forEachMarkdown markdownFiles dir files = None).
Proof.
  induction 1 as [|[name file] files Hfile _ IH]; intros count allFiles listed hit.
  - simpl. split; [done|]. split; [done|]. split; [|done].
    intros out listed' [= <- <-]. exists [], [].
    rewrite !app_nil_r. repeat split; try done.
    intros all [= <-]. done.
  - simpl in Hfile. simpl.
    destruct (JS.startsWith name "." || isSymbolicLink file) eqn:Hhidden.
    { destruct (IH count allFiles (listed ++ [(name, file)]) hit)
        as (HA & Hhit & HB & HC).
      split; [done|]. split; [done|]. split; [|done].
      intros out listed' Hr.
      destruct (HB _ _ Hr) as (more & new & -> & -> & Hmd & Hall2 & Hsame & Hsub).
      exists more, ((name, file) :: new). rewrite <- app_assoc. simpl.
      rewrite Hhidden. repeat split; try done.
      - constructor; [split; [done|apply emptied_same]|done].
      - intros Hf. by rewrite (Hsame Hf). }
    destruct (statIsDirectory file) as [[|]|] eqn:Hstat.
    + destruct (Hfile (locationOf dir name)
                  (Z.of_nat (List.length allFiles) + (count + 1)))
        as (HfA & HfB & HfC).
      destruct (getAllFilesTraced (locationOf dir name)
                  (Z.of_nat (List.length allFiles) + (count + 1)) file)
        as [[[subFiles file']|] h] eqn:Ht; simpl in HfA, HfB, HfC.
      * rewrite <- HfA. simpl.
        destruct (HfB _ _ eq_refl) as (Hmd' & Hemp & Hsame' & Hsub').
        destruct (markdownFiles_Some_inv _ _ _ Hmd') as [entries ->].
        destruct (IH (count + 1) (allFiles ++ subFiles)
                    (listed ++ [(name, Directory entries)]) (hit || h))
          as (HA & Hhit & HB & HC).
        split; [done|]. split.
        { intros Hf. by destruct (orb_false_elim _ _ (Hhit Hf)). }
        split.
        -- intros out listed' Hr.
           destruct (HB _ _ Hr)
             as (more & new & -> & -> & Hmd & Hall2 & Hsame & Hsub).
           exists (subFiles ++ more), ((name, Directory entries) :: new).
           rewrite <- !app_assoc. simpl.
           assert (JS.startsWith name "." || false = false) as ->.
           { destruct file; simpl in Hhidden; try done;
               by rewrite orb_false_r in *. }
           simpl in Hmd'. rewrite Hmd', Hmd. repeat split; try done.
           ++ constructor; [split; [done|apply Hemp; by right]|done].
           ++ intros Hf. rewrite (Hsame Hf).
              destruct (orb_false_elim _ _ (Hhit Hf)) as [_ ->].
              by rewrite (Hsame' eq_refl).
           ++ intros all Hall.
              destruct (markdownFiles (locationOf dir name) file)
                as [subAll|] eqn:HsubAll; [|done].
              destruct (forEachMarkdown markdownFiles dir files)
                as [restAll|] eqn:HrestAll; [|done].
              injection Hall as <-.
              apply sublist_app; [by apply Hsub'|by apply Hsub].
        -- intros Hr. specialize (HC Hr).
           destruct (markdownFiles (locationOf dir name) file); [|done].
           by rewrite HC.
      * rewrite <- HfA. simpl. split; [done|]. split.
        { intros Hf. by destruct (orb_false_elim _ _ Hf). }
        split; [done|]. intros _. by rewrite (HfC eq_refl).
    + destruct (JS.endsWith name ".md") eqn:Hmd0.
      * destruct (IH count (allFiles ++ [locationOf dir name])
                    (listed ++ [(name, file)]) hit)
          as (HA & Hhit & HB & HC).
        split; [done|]. split; [done|]. split.
        -- intros out listed' Hr.
           destruct (HB _ _ Hr)
             as (more & new & -> & -> & Hmd & Hall2 & Hsame & Hsub).
           exists (locationOf dir name :: more), ((name, file) :: new).
           rewrite <- !app_assoc. simpl.
           rewrite Hhidden, Hstat, Hmd0, Hmd. repeat split; try done.
           ++ constructor; [split; [done|apply emptied_same]|done].
           ++ intros Hf. by rewrite (Hsame Hf).
           ++ intros all Hall.
              destruct (forEachMarkdown markdownFiles dir files)
                as [restAll|] eqn:HrestAll; [|done].
              injection Hall as <-. apply sublist_skip. by apply Hsub.
        -- intros Hr. by rewrite (HC Hr).
      * destruct (IH count allFiles (listed ++ [(name, file)]) hit)
          as (HA & Hhit & HB & HC).
        split; [done|]. split; [done|]. split; [|done].
        intros out listed' Hr.
        destruct (HB _ _ Hr)
          as (more & new & -> & -> & Hmd & Hall2 & Hsame & Hsub).
        exists more, ((name, file) :: new).
        rewrite <- !app_assoc. simpl.
        rewrite Hhidden, Hstat, Hmd0. repeat split; try done.
        -- constructor; [split; [done|apply emptied_same]|done].
        -- intros Hf. by rewrite (Hsame Hf).
    + simpl. done.
Qed.

Lemma getAllFiles_above_ceiling dir count d :
  1000 < count ->
  getAllFiles dir count d = Some [] /\
  getAllFilesTraced dir count d = (Some ([], Directory []), true).
Proof.
  intros Hc. destruct d; simpl; by rewrite (proj2 (Z.ltb_lt 1000 count)).
Qed.

Lemma getAllFiles_unreadable dir count d :
  count <= 1000 -> readdirSync d = None ->
  getAllFiles dir count d = None /\
  getAllFilesTraced dir count d = (None, false).
Proof.
  intros Hc Hread.
  destruct d; try discriminate; simpl;
    by rewrite (proj2 (Z.ltb_ge 1000 count)).
Qed.

Lemma getAllFiles_agrees d : walkAgrees d.
Proof.
  assert (forall d' dir count,
            1000 < count \/ (count <= 1000 /\ readdirSync d' = None) ->
            fst <$> (getAllFilesTraced dir count d').1 = getAllFiles dir count d' /\
            (forall files listed,
               (getAllFilesTraced dir count d').1 = Some (files, listed) ->
               markdownFiles dir listed = Some files /\
               (count <= 1000 \/ statIsDirectory d' = Some true ->
                emptied d' listed) /\
               ((getAllFilesTraced dir count d').2 = false -> listed = d') /\
               (forall all, markdownFiles dir d' = Some all ->
                            files `sublist_of` all)) /\
            ((getAllFilesTraced dir count d').1 = None ->
             markdownFiles dir d' = None)) as Hleaf.
  { intros d' dir count [Hc|[Hc Hread]].
    - destruct (getAllFiles_above_ceiling dir count d' Hc) as [Hw Ht].
      rewrite Hw, Ht. simpl. split; [done|]. split; [|done].
      intros files listed [= <- <-]. split; [done|].
      split; [intros [?|?]; [lia|by apply emptied_refused]|].
      split; [done|]. intros. apply sublist_nil_l.
    - destruct (getAllFiles_unreadable dir count d' Hc Hread) as [Hw Ht].
      rewrite Hw, Ht. simpl. split; [done|]. split; [done|].
      intros _. by destruct d'. }
  induction d as [| |files IH| |] using DirEntry_tree_ind; intros dir count.
  all: destruct (Z.ltb_spec 1000 count) as [Hc|Hc]; [apply Hleaf; by left|].
  all: try (apply Hleaf; by right).
  simpl. rewrite (proj2 (Z.ltb_ge 1000 count)) by done.
  destruct (forEachFile_agrees dir files IH count [] [] false)
    as (HA & Hhit & HB & HC).
  destruct (forEachFileTraced getAllFilesTraced dir files count [] [] false)
    as [[[allFiles listed]|] hit] eqn:Ht; simpl in *.
  - split; [done|]. split; [|done].
    intros files' listed' [= <- <-].
    destruct (HB _ _ eq_refl)
      as (more & new & -> & -> & Hmd & Hall2 & Hsame & Hsub).
    simpl. split; [done|]. split; [intros _; by apply emptied_inside|].
    split; [|done]. intros Hf. by rewrite (Hsame Hf).
  - split; [done|]. split; [done|]. intros _. by apply HC.
Qed.







(** * Further properties *)

(** ** The note index and the completion lists *)

Lemma upsertNote_find name hs notes :
  exists i,
    list_find (fun note => filename note = name) (upsertNote name hs notes)
    = Some (i, {| filename := name; headings := hs |}).
Proof.
  induction notes as [|x notes [i IH]].
  - exists O. rewrite upsertNote_nil. simpl. by rewrite decide_True.
  - rewrite upsertNote_cons.
    destruct (decide (filename x = name)) as [Hx|Hx].
    + exists O. simpl. rewrite decide_True by done. by rewrite Hx.
    + exists (S i). simpl. rewrite decide_False by done. by rewrite IH.
Qed.

Lemma upsertNote_find_other name name' hs notes :
  name <> name' ->
  snd <$> list_find (fun note => filename note = name') (upsertNote name hs notes)
  = snd <$> list_find (fun note => filename note = name') notes.
Proof.
  intros Hne. induction notes as [|x notes IH].
  - rewrite upsertNote_nil. simpl. by rewrite decide_False.
  - rewrite upsertNote_cons.
    destruct (decide (filename x = name)) as [Hx|Hx]; simpl.
    + rewrite !decide_False by congruence. done.
    + destruct (decide (filename x = name')); [done|].
      rewrite <- !option_fmap_compose.
      assert (forall o : option (nat * Note),
                snd ∘ prod_map S id <$> o = snd <$> o) as Hsnd.
      { by intros [[]|]. }
      rewrite !Hsnd. apply IH.
Qed.

Lemma headerCompletionResults_labels notes name :
  labelsOf (headerCompletionResults notes name) =
  match list_find (fun note => filename note = name) notes with
  | Some (_, note) => (fun h => Some (JSString (title h))) <$> headings note
  | None => []
  end.
Proof.
  unfold labelsOf, headerCompletionResults.
  destruct (list_find _ notes) as [[i note]|]; [|done].
  rewrite fmap_imap. rewrite <- imap_const. apply imap_ext. done.
Qed.

Lemma headerCompletionResults_data notes name :
  dataOf (headerCompletionResults notes name) =
  (fun i : nat => Some (JSNumber (Z.of_nat i))) <$>
    seq 0 (List.length (headerCompletionResults notes name)).
Proof.
  unfold dataOf, headerCompletionResults.
  destruct (list_find _ notes) as [[j note]|]; [|done].
  rewrite length_imap, fmap_imap.
  generalize (headings note). intros l.
  apply list_eq. intros i. rewrite list_lookup_imap, list_lookup_fmap.
  destruct (l !! i) as [h|] eqn:Hl; simpl.
  - rewrite lookup_seq_lt by (by eapply lookup_lt_Some). done.
  - rewrite lookup_seq_ge by (by apply lookup_ge_None). done.
Qed.

Lemma headerCompletionResults_upsert name hs notes :
  labelsOf (headerCompletionResults (upsertNote name hs notes) name)
    = (fun h => Some (JSString (title h))) <$> hs /\
  List.length (headerCompletionResults (upsertNote name hs notes) name)
    = List.length hs.
Proof.
  rewrite headerCompletionResults_labels. unfold headerCompletionResults.
  destruct (upsertNote_find name hs notes) as [i ->].
  by rewrite length_imap.
Qed.

(** X1. Round trip through the index: after a document has been indexed,
    the heading completions of its identifier are one entry per heading
    extracted from its text, in order, labelled with the title and
    numbered from 0; this holds whatever the index held before. *)
Theorem indexed_document_headings_complete (rootUri ext : string)
    (doc : TextDocument) (notes : list Note) :
  let name := noteFilename rootUri ext (uri doc) in
  let items := headerCompletionResults (addNoteToList rootUri ext doc notes) name in
  labelsOf items
    = (fun t => Some (JSString t)) <$> findHeadingsInDocument (getText doc) /\
  dataOf items
    = (fun i : nat => Some (JSNumber (Z.of_nat i))) <$>
        seq 0 (List.length (findHeadingsInDocument (getText doc))).
Proof.
  simpl. unfold addNoteToList.
  destruct (headerCompletionResults_upsert
              (noteFilename rootUri ext (uri doc))
              (headingsOfTitles (findHeadingsInDocument (getText doc))) notes)
    as [Hlabels Hlen].
  rewrite headerCompletionResults_data, Hlabels, Hlen.
  unfold headingsOfTitles. rewrite <- list_fmap_compose, length_fmap. done.
Qed.

(** X2. Indexing one document leaves the heading completions of every
    other identifier as they were. *)
Theorem upsert_keeps_other_heading_completions (name name' : string)
    (hs : list Heading) (notes : list Note) :
  name <> name' ->
  headerCompletionResults (upsertNote name hs notes) name'
  = headerCompletionResults notes name'.
Proof.
  intros Hne. unfold headerCompletionResults.
  pose proof (upsertNote_find_other name name' hs notes Hne) as H.
  destruct (list_find _ (upsertNote name hs notes)) as [[i x]|],
           (list_find _ notes) as [[j y]|]; simplify_eq/=; done.
Qed.

Lemma upsert_keeps_other_heading_completions_witness :
  headerCompletionResults
    (upsertNote "b" (headingsOfTitles ["new"])
       [{| filename := "a"; headings := headingsOfTitles ["x"] |};
        {| filename := "b"; headings := [] |}]) "a"
  = headerCompletionResults
      [{| filename := "a"; headings := headingsOfTitles ["x"] |};
       {| filename := "b"; headings := [] |}] "a".
Proof.
  apply upsert_keeps_other_heading_completions. discriminate.
Defined.

Lemma fileCompletionResults_filenames notes :
  fileCompletionResults notes =
  imap (fun index name =>
          ({[ "label" := JSString name;
              "kind" := JSNumber CompletionItemKind_Text;
              "data" := JSNumber (Z.of_nat index) ]} : CompletionItem))
       (filename <$> notes).
Proof. unfold fileCompletionResults. by rewrite imap_fmap. Qed.

(** X3. An upsert never moves or relabels an existing file completion:
    the file-completion list before the upsert is a prefix of the list
    after it, which is at most one entry longer. The index never shrinks. *)
Theorem upsert_extends_file_completions (name : string) (hs : list Heading)
    (notes : list Note) :
  fileCompletionResults notes
    `prefix_of` fileCompletionResults (upsertNote name hs notes) /\
  (List.length notes <= List.length (upsertNote name hs notes)
                     <= S (List.length notes))%nat.
Proof.
  rewrite !fileCompletionResults_filenames, upsertNote_filenames.
  assert (List.length (upsertNote name hs notes)
          = List.length (filename <$> upsertNote name hs notes)) as ->
    by (by rewrite length_fmap).
  rewrite upsertNote_filenames.
  destruct (decide (name ∈ filename <$> notes)).
  - rewrite length_fmap. split; [done|lia].
  - rewrite imap_app, length_app, length_fmap. simpl.
    split; [by apply prefix_app_r|lia].
Qed.

(** X4. The last upsert of an identifier wins: an upsert followed by
    another of the same identifier gives the index of the second alone. *)
Theorem upsert_last_write_wins (name : string) (hs1 hs2 : list Heading)
    (notes : list Note) :
  upsertNote name hs2 (upsertNote name hs1 notes) = upsertNote name hs2 notes.
Proof.
  induction notes as [|x notes IH].
  - rewrite !upsertNote_nil, upsertNote_cons. simpl. by rewrite decide_True.
  - rewrite !upsertNote_cons.
    destruct (decide (filename x = name)) as [Hx|Hx].
    + rewrite upsertNote_cons. simpl. by rewrite decide_True.
    + rewrite upsertNote_cons, decide_False by done. by rewrite IH.
Qed.

(** X5. The notes of the index stand in the order in which their
    identifiers were first upserted. *)
Theorem index_order_is_first_observation (ops : list (string * list Heading)) :
  filename <$> upsertAll ops [] = reverse (remove_dups (reverse (ops.*1))).
Proof.
  induction ops as [|[n hs] ops IH] using rev_ind; [done|].
  rewrite upsertAll_snoc, upsertNote_filenames, IH. simpl.
  rewrite fmap_app, reverse_app. simpl.
  destruct (decide_rel elem_of n (reverse (ops.*1))) as [Hin|Hin].
  - rewrite decide_True; [done|].
    by rewrite elem_of_reverse, elem_of_remove_dups.
  - rewrite decide_False.
    + by rewrite reverse_cons.
    + by rewrite elem_of_reverse, elem_of_remove_dups.
Qed.

(** ** The scan: termination and soundness *)

Lemma scanLoop_stops_at_newline docText (p : Z) :
  JS.charAt docText p = Some JS.LF ->
  forall (k : nat) (s : ScanState),
    stateReads docText s ->
    currentPosition s - Z.of_nat (S k) = p ->
    exists ctx, scanLoop (S k) docText s = Some ctx.
Proof.
  intros Hp. induction k as [|k IH]; intros s Hr Hpos.
  - simpl. destruct (loopBody docText s) as [ctx|s1] eqn:Hb; [eauto|].
    destruct (loopBody_Next _ _ _ Hb) as [Hr1 Hp1].
    assert (loopCondition s1 = false) as ->; [|eauto].
    apply not_true_is_false. rewrite loopCondition_true.
    intros H. apply H. rewrite Hr1, Hp1.
    replace (currentPosition s - 1) with p by lia. done.
  - change (scanLoop (S (S k)) docText s) with
      (match loopBody docText s with
       | Return ctx => Some ctx
       | Next s' => if loopCondition s' then scanLoop (S k) docText s'
                    else Some NoContext
       end).
    destruct (loopBody docText s) as [ctx|s1] eqn:Hb; [eauto|].
    destruct (loopBody_Next _ _ _ Hb) as [Hr1 Hp1].
    destruct (loopCondition s1); [|eauto].
    apply IH; [done|lia].
Qed.

(** X6. With a newline somewhere before the cursor the scan returns, within
    as many executions of the loop body as there are offsets between that
    newline and the cursor. *)
Theorem scan_terminates_after_newline (docText : string) (c p : Z) :
  JS.charAt docText p = Some JS.LF ->
  p < c ->
  exists ctx, linkContextScan (Z.to_nat (c - p)) docText c = Some ctx.
Proof.
  intros Hp Hlt. unfold linkContextScan.
  destruct (Z.to_nat (c - p)) as [|k] eqn:Hk; [lia|].
  apply (scanLoop_stops_at_newline docText p Hp k).
  - apply initialState_reads.
  - simpl. lia.
Qed.

Lemma scan_terminates_after_newline_witness :
  exists ctx,
    linkContextScan 3 (joinLines ["[[first"; "ab"]) 10 = Some ctx.
Proof.
  apply (scan_terminates_after_newline (joinLines ["[[first"; "ab"]) 10 7).
  - reflexivity.
  - lia.
Defined.

(** X7. With the cursor at the start of a line other than the first (a
    newline directly before it) the scan returns the empty classification
    after one execution of the body, whatever character follows the
    cursor. *)
Theorem scan_at_line_start (docText : string) (c : Z) (fuel : nat) :
  JS.charAt docText (c - 1) = Some JS.LF ->
  (1 <= fuel)%nat ->
  linkContextScan fuel docText c = Some NoContext.
Proof.
  intros Hp Hf. apply (scanLoop_more_fuel docText 1); [|done].
  unfold linkContextScan. simpl.
  assert (exists s1, loopBody docText (initialState docText c) = Next s1)
    as [s1 Hb].
  { unfold loopBody. simpl. repeat case_match; eauto. }
  rewrite Hb. destruct (loopBody_Next _ _ _ Hb) as [Hr1 Hp1].
  assert (loopCondition s1 = false) as ->; [|done].
  apply not_true_is_false. rewrite loopCondition_true.
  intros H. apply H. rewrite Hr1, Hp1. done.
Qed.

Lemma scan_at_line_start_witness :
  linkContextScan 1 (joinLines ["[[a"; "[[b"]) 4 = Some NoContext.
Proof.
  apply scan_at_line_start; [reflexivity|lia].
Defined.

(** X8. On a line other than the first, without any bracket between the
    start of the line and the cursor (the character at the cursor
    included), the scan returns the empty classification. *)
Theorem scan_line_without_brackets (docText : string) (c p : Z) (fuel : nat) :
  JS.charAt docText p = Some JS.LF ->
  p < c ->
  (forall q, p < q <= c ->
             JS.charAt docText q <> Some "["%char /\
             JS.charAt docText q <> Some "]"%char) ->
  (forall q, p < q < c -> JS.charAt docText q <> Some JS.LF) ->
  (Z.to_nat (c - p) <= fuel)%nat ->
  linkContextScan fuel docText c = Some NoContext.
Proof.
  intros Hp Hlt Hseg Hlf Hf.
  set (k := Z.to_nat (c - p - 1)).
  apply (scanLoop_more_fuel docText (k + 1)); [|lia].
  unfold linkContextScan.
  destruct (scanSteps_segment docText k (initialState docText c))
    as (s1 & Hs1 & Ho1 & Hc1); try done.
  { simpl. intros q Hq. apply Hseg. lia. }
  { simpl. intros q Hq. apply Hlf. lia. }
  rewrite (scanLoop_steps _ _ _ _ _ Hs1).
  apply scanSteps_position in Hs1 as [Hq1 Hr1].
  specialize (Hr1 (initialState_reads docText c)). simpl in Hq1.
  assert (currentPosition s1 = p + 1) as Hpos1 by lia.
  destruct (Hseg (p + 1)) as [Hb1 Hb2]; [lia|].
  unfold stateReads in Hr1. rewrite Hpos1 in Hr1. rewrite <- Hr1 in Hb1, Hb2.
  simpl.
  assert (exists s2, loopBody docText s1 = Next s2) as [s2 Hb].
  { unfold loopBody. apply charIs_false in Hb1, Hb2. rewrite Hb1, Hb2.
    destruct (charIs s1 "#"); eauto. }
  rewrite Hb. destruct (loopBody_Next _ _ _ Hb) as [Hr2 Hp2].
  assert (loopCondition s2 = false) as ->; [|done].
  apply not_true_is_false. rewrite loopCondition_true.
  intros H. apply H. rewrite Hr2, Hp2, Hpos1.
  replace (p + 1 - 1) with p by lia. done.
Qed.

Lemma scan_line_without_brackets_witness :
  linkContextScan 4 (joinLines ["[[a"; "b#c"]) 7 = Some NoContext.
Proof.
  apply (scan_line_without_brackets (joinLines ["[[a"; "b#c"]) 7 3);
    try reflexivity; try lia.
  - intros q Hq. each_offset q Hq.
  - intros q Hq. each_offset q Hq.
Defined.

Lemma scanSteps_open_flag docText c k s :
  scanSteps k docText (initialState docText c) = Some s ->
  (firstOpeningBraceHit s = true ->
   exists q, currentPosition s < q <= c /\
             JS.charAt docText q = Some "["%char) /\
  (forall q, currentPosition s <= q < c -> JS.charAt docText q <> Some JS.LF).
Proof.
  revert s. induction k as [|k IH]; intros s.
  - simpl. intros; simplify_eq. simpl. split; [done|]. intros q Hq. lia.
  - intros H. apply scanSteps_succ_inv in H as (s1 & H1 & Hb & Hcond).
    destruct (IH _ H1) as [Hflag Hlf].
    apply scanSteps_position in H1 as [Hp Hr].
    specialize (Hr (initialState_reads docText c)). simpl in Hp.
    destruct (loopBody_Next _ _ _ Hb) as [Hr2 Hp2].
    split.
    + intros Ho. unfold loopBody in Hb.
      destruct (firstOpeningBraceHit s1) eqn:Ho1.
      { destruct Hflag as (q & Hq & Hc); [done|]. exists q. split; [lia|done]. }
      destruct (charIs s1 "#"); [simplify_eq; simpl in Ho; congruence|].
      destruct (charIs s1 "[") eqn:Hb1.
      * apply charIs_true in Hb1. exists (currentPosition s1).
        split; [lia|]. by rewrite <- Hr.
      * destruct (charIs s1 "]"); [destruct (firstClosingBraceHit s1)|];
          simplify_eq; simpl in Ho; congruence.
    + intros q Hq.
      destruct (decide (q = currentPosition s)) as [->|].
      * rewrite <- Hr2. by apply loopCondition_true.
      * apply Hlf. lia.
Qed.

Lemma scanLoop_Some_inv docText fuel s0 ctx :
  scanLoop fuel docText s0 = Some ctx ->
  exists k s,
    scanSteps k docText s0 = Some s /\
    (loopBody docText s = Return ctx \/
     ctx = NoContext /\
     exists s', loopBody docText s = Next s' /\ loopCondition s' = false).
Proof.
  revert s0. induction fuel as [|fuel IH]; intros s0; [done|].
  simpl. destruct (loopBody docText s0) as [r|s1] eqn:Hb.
  - intros; simplify_eq. exists O, s0. split; [done|]. by left.
  - destruct (loopCondition s1) eqn:Hc.
    + intros H. destruct (IH _ H) as (k & s & Hs & Hres).
      exists (S k), s. split; [|done]. simpl. by rewrite Hb, Hc.
    + intros; simplify_eq. exists O, s0. split; [done|]. right. eauto.
Qed.

(** ** Strings *)

Lemma app_cons c a b : String c a +:+ b = String c (a +:+ b).
Proof. reflexivity. Qed.

Lemma app_empty_l b : EmptyString +:+ b = b.
Proof. reflexivity. Qed.

Lemma string_length_app a b :
  String.length (a +:+ b) = (String.length a + String.length b)%nat.
Proof.
  induction a as [|c a IH]; [done|]. rewrite app_cons. simpl. by rewrite IH.
Qed.

Lemma charAt_negative s i : i < 0 -> JS.charAt s i = None.
Proof. intros H. unfold JS.charAt. by rewrite (proj2 (Z.ltb_lt _ _) H). Qed.

Lemma charAt_cons c s i :
  JS.charAt (String c s) i =
  if i =? 0 then Some c else if i <? 0 then None else JS.charAt s (i - 1).
Proof.
  unfold JS.charAt.
  destruct (Z.eqb_spec i 0) as [->|Hne]; [done|].
  destruct (Z.ltb_spec i 0) as [Hlt|Hge]; [done|].
  destruct (Z.ltb_spec (i - 1) 0) as [Hlt'|_]; [lia|].
  replace (Z.to_nat i) with (S (Z.to_nat (i - 1))) by lia. done.
Qed.

Lemma charAt_app a b i :
  JS.charAt (a +:+ b) i =
  if i <? Z.of_nat (String.length a) then JS.charAt a i
  else JS.charAt b (i - Z.of_nat (String.length a)).
Proof.
  revert i. induction a as [|c a IH]; intros i.
  - rewrite app_empty_l.
    change (Z.of_nat (String.length EmptyString)) with 0.
    destruct (Z.ltb_spec i 0) as [Hlt|Hge].
    + by rewrite !charAt_negative.
    + by replace (i - 0) with i by lia.
  - rewrite app_cons, !charAt_cons, IH.
    destruct (Z.eqb_spec i 0) as [->|Hne]; [done|].
    destruct (Z.ltb_spec i 0) as [Hlt|Hge].
    + by rewrite (proj2 (Z.ltb_lt i _)) by (simpl; lia).
    + simpl String.length.
      destruct (Z.ltb_spec (i - 1) (Z.of_nat (String.length a))),
               (Z.ltb_spec i (Z.of_nat (S (String.length a))));
        try lia; try done.
      f_equal. lia.
Qed.

Lemma charAt_beyond s i :
  Z.of_nat (String.length s) <= i -> JS.charAt s i = None.
Proof.
  revert i. induction s as [|c s IH]; intros i Hi.
  - unfold JS.charAt. destruct (i <? 0); [done|]. by destruct (Z.to_nat i).
  - rewrite charAt_cons. simpl in Hi.
    destruct (Z.eqb_spec i 0); [lia|].
    destruct (Z.ltb_spec i 0); [done|]. apply IH. lia.
Qed.

Lemma charAt_stringForall P s i ch :
  stringForall P s = true -> JS.charAt s i = Some ch -> P ch = true.
Proof.
  revert i. induction s as [|c s IH]; intros i Hall.
  - unfold JS.charAt. destruct (i <? 0); [done|]. by destruct (Z.to_nat i).
  - simpl in Hall. apply andb_true_iff in Hall as [Hc Hall].
    rewrite charAt_cons.
    destruct (Z.eqb_spec i 0); [by intros; simplify_eq|].
    destruct (Z.ltb_spec i 0); [done|]. by apply IH.
Qed.

Lemma substring_all s : String.substring 0 (String.length s) s = s.
Proof. induction s as [|c s IH]; [done|]. simpl. by rewrite IH. Qed.

Lemma substring_app_l a b : String.substring 0 (String.length a) (a +:+ b) = a.
Proof.
  induction a as [|c a IH]; [by destruct b|].
  rewrite app_cons. simpl. by rewrite IH.
Qed.

Lemma substring_app_r a b n :
  String.substring (String.length a) n (a +:+ b) = String.substring 0 n b.
Proof.
  induction a as [|c a IH]; [done|]. rewrite app_cons. simpl. apply IH.
Qed.

Lemma substring_middle a b c :
  JS.substring (a +:+ b +:+ c) (Z.of_nat (String.length a))
               (Z.of_nat (String.length a + String.length b)) = b.
Proof.
  unfold JS.substring, JS.clampIndex. rewrite !string_length_app.
  rewrite !Z.max_l, !Z.min_l, !Nat2Z.id by lia.
  rewrite Nat.min_l, Nat.max_r by lia.
  replace (String.length a + String.length b - String.length a)%nat
    with (String.length b) by lia.
  by rewrite substring_app_r, substring_app_l.
Qed.

Lemma isTailChar_spec c :
  isTailChar c = true <-> c <> "["%char /\ c <> "]"%char /\ c <> JS.LF.
Proof.
  unfold isTailChar.
  rewrite !andb_true_iff, !negb_true_iff, !bool_decide_eq_false. tauto.
Qed.

Lemma isNameChar_spec c :
  isNameChar c = true <->
  c <> "#"%char /\ c <> "["%char /\ c <> "]"%char /\ c <> JS.LF.
Proof.
  unfold isNameChar.
  rewrite andb_true_iff, negb_true_iff, bool_decide_eq_false, isTailChar_spec.
  tauto.
Qed.

(** ** The scan on a line that ends in an open link *)

Lemma scan_to_open_pair_file (docText : string) (c p : Z) :
  JS.charAt docText p = Some "["%char ->
  JS.charAt docText (p + 1) = Some "["%char ->
  p + 1 < c ->
  (forall q, p + 1 < q <= c ->
             JS.charAt docText q <> Some "#"%char /\
             JS.charAt docText q <> Some "["%char /\
             JS.charAt docText q <> Some "]"%char) ->
  (forall q, p <= q < c -> JS.charAt docText q <> Some JS.LF) ->
  forall fuel, (Z.to_nat (c - p) < fuel)%nat ->
    linkContextScan fuel docText c = Some FileLinkContext.
Proof.
  intros Hp Hp1 Hlt Hseg Hlf fuel Hf.
  set (k := Z.to_nat (c - p - 1)).
  apply (scanLoop_more_fuel docText (k + 2)); [|lia].
  unfold linkContextScan.
  destruct (scanSteps_plain docText k (initialState docText c))
    as (s1 & Hs1 & Ha1 & _ & Ho1 & _); try done.
  { simpl. intros q Hq. apply Hseg. lia. }
  { simpl. intros q Hq. apply Hlf. lia. }
  rewrite (scanLoop_steps _ _ _ _ _ Hs1).
  apply scanSteps_position in Hs1 as [Hq1 Hr1].
  specialize (Hr1 (initialState_reads docText c)). simpl in Hq1.
  assert (currentPosition s1 = p + 1) as Hpos1 by lia.
  unfold stateReads in Hr1. rewrite Hpos1, Hp1 in Hr1.
  assert (firstOpeningBraceHit s1 = false) as Ho.
  { rewrite Ho1. destruct k eqn:Hk; [lia|done]. }
  simpl in Ha1. simpl. unfold loopBody at 1.
  rewrite (proj2 (charIs_false s1 "#")) by (rewrite Hr1; done).
  rewrite (proj2 (charIs_true s1 "[")) by done.
  rewrite Ho.
  set (s2 := stepBack _ _).
  assert (currentChar s2 = Some "["%char) as Hc2.
  { subst s2. simpl. rewrite Hpos1. by replace (p + 1 - 1) with p by lia. }
  rewrite (proj2 (loopCondition_true s2)) by (rewrite Hc2; done).
  unfold loopBody.
  rewrite (proj2 (charIs_false s2 "#")) by (rewrite Hc2; done).
  rewrite (proj2 (charIs_true s2 "[")) by done.
  subst s2. simpl. by rewrite Ha1.
Qed.

(** The characters of a text from an opening pair on. *)
Lemma charAt_from_pair pre tail i :
  0 <= i ->
  JS.charAt (pre +:+ "[[" +:+ tail) (Z.of_nat (String.length pre) + i) =
  if i =? 0 then Some "["%char
  else if i =? 1 then Some "["%char
  else JS.charAt tail (i - 2).
Proof.
  intros Hi. rewrite charAt_app.
  destruct (Z.ltb_spec (Z.of_nat (String.length pre) + i)
                       (Z.of_nat (String.length pre))); [lia|].
  replace (Z.of_nat (String.length pre) + i - Z.of_nat (String.length pre))
    with i by lia.
  change ("[[" +:+ tail) with (String "[" (String "[" tail)).
  rewrite !charAt_cons.
  destruct (Z.eqb_spec i 0); [done|].
  destruct (Z.ltb_spec i 0); [lia|].
  destruct (Z.eqb_spec (i - 1) 0), (Z.eqb_spec i 1); try lia; [done|].
  destruct (Z.ltb_spec (i - 1) 0); [lia|].
  f_equal. lia.
Qed.

Lemma charAt_name_not_special s i :
  stringForall isNameChar s = true ->
  JS.charAt s i <> Some "#"%char /\
  JS.charAt s i <> Some "["%char /\
  JS.charAt s i <> Some "]"%char /\
  JS.charAt s i <> Some JS.LF.
Proof.
  intros Hall.
  destruct (JS.charAt s i) as [ch|] eqn:Hch; [|done].
  apply (charAt_stringForall _ _ _ _ Hall), isNameChar_spec in Hch.
  destruct Hch as (? & ? & ? & ?). repeat split; congruence.
Qed.

Lemma charAt_tail_not_special s i :
  stringForall isTailChar s = true ->
  JS.charAt s i <> Some "["%char /\
  JS.charAt s i <> Some "]"%char /\
  JS.charAt s i <> Some JS.LF.
Proof.
  intros Hall.
  destruct (JS.charAt s i) as [ch|] eqn:Hch; [|done].
  apply (charAt_stringForall _ _ _ _ Hall), isTailChar_spec in Hch.
  destruct Hch as (? & ? & ?). repeat split; congruence.
Qed.

(** X10. With the cursor at the end of a text that ends in [[[] followed by
    characters that are neither [#], brackets nor newlines, the handler
    returns the file completions: one entry per note of the index,
    whatever precedes the pair. *)
Theorem file_link_completion (pre partial docUri : string)
    (notes : list Note) (fuel : nat) :
  stringForall isNameChar partial = true ->
  (String.length partial + 2 < fuel)%nat ->
  onCompletion fuel notes
    (Some {| uri := docUri; getText := pre +:+ "[[" +:+ partial |})
    (Z.of_nat (String.length (pre +:+ "[[" +:+ partial)))
  = Some (fileCompletionResults notes).
Proof.
  intros Hall Hf. simpl.
  rewrite (scan_to_open_pair_file _ _ (Z.of_nat (String.length pre))); [done|..].
  - rewrite <- (Z.add_0_r (Z.of_nat _)). by rewrite charAt_from_pair.
  - by rewrite charAt_from_pair.
  - rewrite !string_length_app. simpl. lia.
  - intros q Hq.
    replace q with (Z.of_nat (String.length pre) + (q - Z.of_nat (String.length pre)))
      by lia.
    rewrite charAt_from_pair by lia.
    destruct (Z.eqb_spec (q - Z.of_nat (String.length pre)) 0); [lia|].
    destruct (Z.eqb_spec (q - Z.of_nat (String.length pre)) 1); [lia|].
    destruct (charAt_name_not_special partial
                (q - Z.of_nat (String.length pre) - 2) Hall) as (?&?&?&?).
    done.
  - intros q Hq.
    replace q with (Z.of_nat (String.length pre) + (q - Z.of_nat (String.length pre)))
      by lia.
    rewrite charAt_from_pair by lia.
    destruct (Z.eqb_spec (q - Z.of_nat (String.length pre)) 0); [done|].
    destruct (Z.eqb_spec (q - Z.of_nat (String.length pre)) 1); [done|].
    destruct (charAt_name_not_special partial
                (q - Z.of_nat (String.length pre) - 2) Hall) as (?&?&?&?).
    done.
  - rewrite !string_length_app. simpl. lia.
Qed.

Lemma file_link_completion_witness :
  onCompletion 7
    [{| filename := "Note"; headings := [] |}]
    (Some {| uri := "a.txt"; getText := "See " +:+ "[[" +:+ "No" |})
    (Z.of_nat (String.length ("See " +:+ "[[" +:+ "No")))
  = Some (fileCompletionResults [{| filename := "Note"; headings := [] |}]).
Proof.
  apply file_link_completion; [reflexivity|simpl; lia].
Defined.

Lemma app_assoc_string a b c : (a +:+ b) +:+ c = a +:+ b +:+ c.
Proof.
  induction a as [|x a IH]; [done|]. rewrite !app_cons. by rewrite IH.
Qed.

Lemma charAt_from_marker name rest j :
  0 <= j ->
  JS.charAt (name +:+ "#" +:+ rest) j =
  if j <? Z.of_nat (String.length name) then JS.charAt name j
  else if j =? Z.of_nat (String.length name) then Some "#"%char
  else JS.charAt rest (j - Z.of_nat (String.length name) - 1).
Proof.
  intros Hj. rewrite charAt_app.
  destruct (Z.ltb_spec j (Z.of_nat (String.length name))); [done|].
  change ("#" +:+ rest) with (String "#" rest). rewrite charAt_cons.
  destruct (Z.eqb_spec (j - Z.of_nat (String.length name)) 0),
           (Z.eqb_spec j (Z.of_nat (String.length name))); try lia; [done|].
  destruct (Z.ltb_spec (j - Z.of_nat (String.length name)) 0); [lia|done].
Qed.

(** X11. With the cursor at the end of a text that ends in [[[], a note
    identifier without [#], brackets and newlines, a [#] and any
    characters other than brackets and newlines, the handler returns the
    heading completions of exactly that identifier, whatever precedes the
    pair. *)
Theorem heading_link_completion (pre name rest docUri : string)
    (notes : list Note) (fuel : nat) :
  stringForall isNameChar name = true ->
  stringForall isTailChar rest = true ->
  (String.length name + String.length rest + 3 < fuel)%nat ->
  onCompletion fuel notes
    (Some {| uri := docUri;
             getText := pre +:+ "[[" +:+ name +:+ "#" +:+ rest |})
    (Z.of_nat (String.length (pre +:+ "[[" +:+ name +:+ "#" +:+ rest)))
  = Some (headerCompletionResults notes name).
Proof.
  intros Hname Hrest Hf. simpl.
  set (L := Z.of_nat (String.length pre)).
  set (n := Z.of_nat (String.length name)).
  rewrite (scan_to_leftmost_hash _ _ L (L + 2 + n)).
  - simpl. do 2 f_equal.
    rewrite <- (app_assoc_string pre "[[").
    replace (L + 2 + n)
      with (Z.of_nat (String.length (pre +:+ "[[") + String.length name))
      by (rewrite string_length_app; simpl; lia).
    replace (L + 2) with (Z.of_nat (String.length (pre +:+ "[[")))
      by (rewrite string_length_app; simpl; lia).
    apply substring_middle.
  - rewrite <- (Z.add_0_r L). subst L. by rewrite charAt_from_pair.
  - subst L. by rewrite charAt_from_pair.
  - rewrite !string_length_app. simpl. lia.
  - replace (L + 2 + n) with (L + (2 + n)) by lia.
    subst L. rewrite charAt_from_pair by lia.
    destruct (Z.eqb_spec (2 + n) 0); [lia|].
    destruct (Z.eqb_spec (2 + n) 1); [lia|].
    rewrite charAt_from_marker by lia. fold n.
    destruct (Z.ltb_spec (2 + n - 2) n); [lia|].
    destruct (Z.eqb_spec (2 + n - 2) n); [done|lia].
  - intros q Hq. replace q with (L + (q - L)) by lia.
    subst L. rewrite charAt_from_pair by lia.
    destruct (Z.eqb_spec (q - Z.of_nat (String.length pre)) 0); [lia|].
    destruct (Z.eqb_spec (q - Z.of_nat (String.length pre)) 1); [lia|].
    rewrite charAt_from_marker by lia. fold n.
    destruct (Z.ltb_spec (q - Z.of_nat (String.length pre) - 2) n); [|lia].
    destruct (charAt_name_not_special name
                (q - Z.of_nat (String.length pre) - 2) Hname) as (?&?&?&?).
    done.
  - intros q Hq. replace q with (L + (q - L)) by lia.
    subst L. rewrite charAt_from_pair by lia.
    destruct (Z.eqb_spec (q - Z.of_nat (String.length pre)) 0); [lia|].
    destruct (Z.eqb_spec (q - Z.of_nat (String.length pre)) 1); [lia|].
    rewrite charAt_from_marker by lia. fold n.
    destruct (Z.ltb_spec (q - Z.of_nat (String.length pre) - 2) n); [lia|].
    destruct (Z.eqb_spec (q - Z.of_nat (String.length pre) - 2) n); [lia|].
    destruct (charAt_tail_not_special rest
                (q - Z.of_nat (String.length pre) - 2 - n - 1) Hrest) as (?&?&?).
    done.
  - intros q Hq. replace q with (L + (q - L)) by lia.
    subst L. rewrite charAt_from_pair by lia.
    destruct (Z.eqb_spec (q - Z.of_nat (String.length pre)) 0); [done|].
    destruct (Z.eqb_spec (q - Z.of_nat (String.length pre)) 1); [done|].
    rewrite charAt_from_marker by lia. fold n.
    destruct (Z.ltb_spec (q - Z.of_nat (String.length pre) - 2) n).
    + destruct (charAt_name_not_special name
                  (q - Z.of_nat (String.length pre) - 2) Hname) as (?&?&?&?).
      done.
    + destruct (Z.eqb_spec (q - Z.of_nat (String.length pre) - 2) n); [done|].
      destruct (charAt_tail_not_special rest
                  (q - Z.of_nat (String.length pre) - 2 - n - 1) Hrest) as (?&?&?).
      done.
  - rewrite !string_length_app. simpl. lia.
Qed.

Lemma heading_link_completion_witness :
  onCompletion 12
    [{| filename := "Note"; headings := headingsOfTitles ["Head"] |}]
    (Some {| uri := "a.txt";
             getText := "See " +:+ "[[" +:+ "Note" +:+ "#" +:+ "He#" |})
    (Z.of_nat (String.length ("See " +:+ "[[" +:+ "Note" +:+ "#" +:+ "He#")))
  = Some (headerCompletionResults
            [{| filename := "Note"; headings := headingsOfTitles ["Head"] |}]
            "Note").
Proof.
  apply heading_link_completion; [reflexivity|reflexivity|simpl; lia].
Defined.

(** ** Note identifiers *)

Lemma prefix_app_string p s : String.prefix p (p +:+ s) = true.
Proof. apply String.prefix_correct, substring_app_l. Qed.

Lemma index_of_prefix p s :
  String.prefix p s = true -> String.index 0 p s = Some O.
Proof.
  intros H. destruct s as [|b t].
  - by destruct p.
  - change (String.index 0 p (String b t)) with
      (if String.prefix p (String b t) then Some O
       else match String.index 0 p t with
            | Some n => Some (S n)
            | None => None
            end).
    by rewrite H.
Qed.

Lemma index_prefix p s : String.index 0 p (p +:+ s) = Some O.
Proof. apply index_of_prefix, prefix_app_string. Qed.

Lemma substrFrom_app a b : JS.substrFrom (a +:+ b) (String.length a) = b.
Proof.
  unfold JS.substrFrom. rewrite string_length_app, substring_app_r.
  replace (String.length a + String.length b - String.length a)%nat
    with (String.length b) by lia.
  apply substring_all.
Qed.

Lemma removeFirst_prefix p s : JS.removeFirst (p +:+ s) p = s.
Proof.
  unfold JS.removeFirst. rewrite index_prefix. simpl.
  unfold JS.substr. rewrite substrFrom_app.
  by destruct (p +:+ s).
Qed.

Lemma endsWith_app a e : JS.endsWith (a +:+ e) e = true.
Proof.
  unfold JS.endsWith. rewrite string_length_app.
  rewrite (proj2 (Nat.leb_le _ _)) by lia. simpl.
  apply bool_decide_eq_true.
  replace (String.length a + String.length e - String.length e)%nat
    with (String.length a) by lia.
  by rewrite substring_app_r, substring_all.
Qed.

Lemma length_substring_le n m s :
  (String.length (String.substring n m s) <= m)%nat.
Proof.
  revert n m. induction s as [|c s IH]; intros [|n] [|m]; simpl; try lia.
  - specialize (IH O m). lia.
  - apply (IH n O).
  - apply (IH n (S m)).
Qed.

Lemma prefix_length p s :
  String.prefix p s = true -> (String.length p <= String.length s)%nat.
Proof.
  revert s. induction p as [|c p IH]; intros s; [simpl; lia|].
  destruct s as [|d s]; simpl; [done|]. destruct (ascii_dec c d); [|done].
  intros H. apply IH in H. lia.
Qed.

Lemma lastIndexOfFrom_unfold i p s :
  JS.lastIndexOfFrom i p s =
  if String.prefix p (JS.substrFrom s i) then Some i
  else match i with
       | O => None
       | S j => JS.lastIndexOfFrom j p s
       end.
Proof. by destruct i. Qed.

Lemma lastIndexOfFrom_suffix a e d :
  (d <= String.length e)%nat ->
  JS.lastIndexOfFrom (String.length a + d) e (a +:+ e) = Some (String.length a).
Proof.
  induction d as [|d IH]; intros Hd.
  - rewrite Nat.add_0_r, lastIndexOfFrom_unfold, substrFrom_app.
    assert (String.prefix e e = true) as ->; [|done].
    apply String.prefix_correct, substring_all.
  - rewrite lastIndexOfFrom_unfold.
    destruct (String.prefix e (JS.substrFrom (a +:+ e) (String.length a + S d)))
      eqn:Hpre.
    + apply prefix_length in Hpre. unfold JS.substrFrom in Hpre.
      pose proof (length_substring_le (String.length a + S d)
                    (String.length (a +:+ e) - (String.length a + S d))
                    (a +:+ e)) as Hle.
      exfalso. pose proof (string_length_app a e). lia.
    + replace (String.length a + S d)%nat with (S (String.length a + d)) by lia.
      apply IH. lia.
Qed.

Lemma lastIndexOf_suffix a e :
  JS.lastIndexOf (a +:+ e) e = Some (String.length a).
Proof.
  unfold JS.lastIndexOf. rewrite string_length_app. by apply lastIndexOfFrom_suffix.
Qed.

(** X12. The identifier of a document found at [rootUri/name.ext] is
    [name]: the root is removed, the extension is cut off once, at its
    last occurrence, and one leading slash is dropped. This holds for every
    [name], also one that itself contains the root, the extension or
    slashes; distinct names under the root never share an identifier. *)
Theorem noteFilename_under_root (rootUri ext name : string) :
  noteFilename rootUri ext (rootUri +:+ "/" +:+ name +:+ ext) = name.
Proof.
  unfold noteFilename. rewrite removeFirst_prefix.
  rewrite <- (app_assoc_string "/" name ext).
  rewrite endsWith_app, lastIndexOf_suffix.
  unfold JS.substr. rewrite substring_app_l.
  change ("/" +:+ name) with (String "/" name).
  assert (JS.startsWith (String "/" name) "/" = true) as ->.
  { unfold JS.startsWith. simpl. by destruct name. }
  unfold JS.substrFrom. simpl.
  rewrite Nat.sub_0_r. apply substring_all.
Qed.

Example noteFilename_strips_one_extension :
  noteFilename "file:///vault" ".txt" "file:///vault/a.txt.txt" = "a.txt".
Proof. reflexivity. Qed.

(** ** Heading extraction *)

Lemma trimEnd_cons c s :
  JS.trimEnd (String c s) =
  match JS.trimEnd s with
  | EmptyString =>
      if JS.isWhiteSpace c then EmptyString else String c EmptyString
  | String d r => String c (String d r)
  end.
Proof. reflexivity. Qed.

Lemma trimEnd_idem s : JS.trimEnd (JS.trimEnd s) = JS.trimEnd s.
Proof.
  induction s as [|c s IH]; [done|]. rewrite trimEnd_cons.
  destruct (JS.trimEnd s) as [|d r] eqn:E.
  - destruct (JS.isWhiteSpace c) eqn:Hc; [done|].
    rewrite trimEnd_cons. simpl. by rewrite Hc.
  - rewrite trimEnd_cons, IH. done.
Qed.

Lemma trimStart_head s :
  JS.trimStart s = EmptyString \/
  exists c r, JS.trimStart s = String c r /\ JS.isWhiteSpace c = false.
Proof.
  induction s as [|c s IH]; [by left|]. simpl.
  destruct (JS.isWhiteSpace c) eqn:Hc; [done|]. right. eauto.
Qed.

Lemma trimEnd_head c r :
  JS.isWhiteSpace c = false -> exists r', JS.trimEnd (String c r) = String c r'.
Proof.
  intros Hc. rewrite trimEnd_cons. destruct (JS.trimEnd r); rewrite ?Hc; eauto.
Qed.

Lemma trim_idem s : JS.trim (JS.trim s) = JS.trim s.
Proof.
  unfold JS.trim.
  destruct (trimStart_head s) as [->|(c & r & -> & Hc)]; [done|].
  destruct (trimEnd_head c r Hc) as [r' Hr']. rewrite Hr' at 1.
  simpl JS.trimStart. rewrite Hc, <- Hr'. apply trimEnd_idem.
Qed.

Lemma mapLines_trimmed lastIndex lines :
  Forall (fun t => JS.trim t = t) (mapLines lastIndex lines).
Proof.
  revert lastIndex. induction lines as [|line lines IH]; intros lastIndex.
  - constructor.
  - simpl. destruct (regexExec lastIndex line) as [m li].
    constructor; [apply trim_idem|apply IH].
Qed.

(** X13. Every title handed to the index is non-empty and carries no white
    space at either end. *)
Theorem extracted_titles_trimmed (textContent : string) :
  Forall (fun t => t <> EmptyString /\ JS.trim t = t)
         (findHeadingsInDocument textContent).
Proof.
  unfold findHeadingsInDocument. apply Forall_forall. intros t Ht.
  apply list_elem_of_filter in Ht as [Hne Hin]. split; [done|].
  pose proof (mapLines_trimmed 0 (JS.splitLines textContent)) as Hall.
  rewrite Forall_forall in Hall. by apply Hall.
Qed.

Lemma matchAtStart_positive line n : matchAtStart line = Some n -> n <> O.
Proof.
  unfold matchAtStart. repeat case_match; intros; simplify_eq; lia.
Qed.

Lemma mapLines_count lastIndex lines :
  (List.length (filter (fun elem => elem <> EmptyString)
                       (mapLines lastIndex lines))
   <= (List.length lines + (if (lastIndex =? 0)%nat then 1 else 0)) / 2)%nat.
Proof.
  revert lastIndex. induction lines as [|line lines IH]; intros lastIndex.
  - simpl. lia.
  - simpl mapLines. unfold regexExec.
    destruct (Nat.eqb_spec lastIndex 0) as [->|Hne].
    + destruct (matchAtStart line) as [n|] eqn:Hm.
      * apply matchAtStart_positive in Hm.
        specialize (IH n). rewrite (proj2 (Nat.eqb_neq n 0) Hm) in IH.
        rewrite filter_cons. simpl List.length.
        assert ((List.length lines + 0) / 2 + 1
                <= (S (List.length lines) + 1) / 2)%nat.
        { replace (S (List.length lines) + 1)%nat
            with (List.length lines + 1 * 2)%nat by lia.
          rewrite Nat.div_add by lia. rewrite Nat.add_0_r. lia. }
        destruct (decide _); simpl List.length; lia.
      * specialize (IH O). rewrite Nat.eqb_refl in IH.
        rewrite filter_cons_False by (simpl; by intros H; apply H).
        simpl List.length.
        assert ((List.length lines + 1) / 2
                <= (S (List.length lines) + 1) / 2)%nat
          by (apply Nat.Div0.div_le_mono; lia).
        lia.
    + specialize (IH O). rewrite Nat.eqb_refl in IH.
      rewrite filter_cons_False by (simpl; by intros H; apply H).
      simpl List.length.
      replace (S (List.length lines) + 0)%nat with (List.length lines + 1)%nat
        by lia.
      done.
Qed.

(** X14. At most every other line yields a heading: a text of [n] lines
    gives at most [(n + 1) / 2] titles, since the search of the line after
    a match starts past index 0 and fails. *)
Theorem headings_at_most_every_other_line (textContent : string) :
  (List.length (findHeadingsInDocument textContent)
   <= (List.length (JS.splitLines textContent) + 1) / 2)%nat.
Proof.
  unfold findHeadingsInDocument.
  apply (mapLines_count 0 (JS.splitLines textContent)).
Qed.

Lemma splitLines_line a :
  stringForall isLineChar a = true -> JS.splitLines a = [a].
Proof.
  induction a as [|c a IH]; [done|]. simpl.
  intros [Hc Ha]%andb_true_iff. unfold isLineChar in Hc.
  apply negb_true_iff in Hc. rewrite Hc, (IH Ha). done.
Qed.

Lemma splitLines_app_newline a b :
  stringForall isLineChar a = true ->
  JS.splitLines (a +:+ newline +:+ b) = a :: JS.splitLines b.
Proof.
  change (newline +:+ b) with (String JS.LF b).
  induction a as [|c a IH].
  - intros _. reflexivity.
  - simpl stringForall. intros [Hc Ha]%andb_true_iff. unfold isLineChar in Hc.
    apply negb_true_iff in Hc. rewrite app_cons. simpl.
    rewrite Hc, (IH Ha). done.
Qed.

Lemma mapLines_cons lastIndex line lines :
  mapLines lastIndex (line :: lines) =
  JS.trim (JS.removeFirst
             (from_option id EmptyString (regexExec lastIndex line).1) "#")
  :: mapLines (regexExec lastIndex line).2 lines.
Proof. simpl. by destruct (regexExec lastIndex line). Qed.

Lemma regexExec_match line n :
  matchAtStart line = Some n ->
  regexExec 0 line = (Some (JS.substr line 0 n), n).
Proof. intros H. unfold regexExec. simpl. by rewrite H. Qed.

Lemma regexExec_no_match line :
  matchAtStart line = None -> regexExec 0 line = (None, O).
Proof. intros H. unfold regexExec. simpl. by rewrite H. Qed.

Lemma mapLines_after_match lastIndex line lines :
  lastIndex <> O ->
  mapLines lastIndex (line :: lines) = EmptyString :: mapLines 0 lines.
Proof.
  intros H. by rewrite mapLines_cons, (regexExec_after_match _ _ H).
Qed.

(** X15. Extraction line by line: a line that does not match contributes
    nothing and the rest of the text is treated as a text of its own; a
    line that matches contributes what it yields alone, the line after it
    contributes nothing whatever it holds, and the text after that line is
    treated as a text of its own. *)
Theorem extraction_by_lines (l1 rest : string) :
  stringForall isLineChar l1 = true ->
  (matchAtStart l1 = None ->
   findHeadingsInDocument (l1 +:+ newline +:+ rest)
   = findHeadingsInDocument rest) /\
  (forall (n : nat) (l2 : string),
     matchAtStart l1 = Some n ->
     stringForall isLineChar l2 = true ->
     findHeadingsInDocument (l1 +:+ newline +:+ l2)
     = findHeadingsInDocument l1 /\
     findHeadingsInDocument (l1 +:+ newline +:+ l2 +:+ newline +:+ rest)
     = findHeadingsInDocument l1 ++ findHeadingsInDocument rest).
Proof.
  intros H1. unfold findHeadingsInDocument. split.
  - intros Hm. rewrite (splitLines_app_newline _ _ H1).
    rewrite mapLines_cons, (regexExec_no_match _ Hm). simpl.
    by rewrite filter_cons_False by (by intros H; apply H).
  - intros n l2 Hm H2.
    pose proof (matchAtStart_positive _ _ Hm) as Hn.
    rewrite !(splitLines_app_newline _ _ H1), (splitLines_line _ H1).
    rewrite (splitLines_app_newline _ _ H2), (splitLines_line _ H2).
    rewrite !(mapLines_cons 0 l1), (regexExec_match _ _ Hm).
    cbn [fst snd from_option id].
    rewrite !(mapLines_after_match n l2 _ Hn).
    rewrite !filter_cons. simpl.
    destruct (decide (JS.trim (JS.removeFirst (JS.substr l1 0 n) "#") <> ""));
      destruct (decide (EmptyString <> EmptyString)); try done.
Qed.

Lemma extraction_by_lines_witness :
  findHeadingsInDocument ("text" +:+ newline +:+ "# A") = ["A"] /\
  findHeadingsInDocument ("# A" +:+ newline +:+ "# B") = ["A"] /\
  findHeadingsInDocument ("# A" +:+ newline +:+ "# B" +:+ newline +:+ "# C")
  = ["A"; "C"].
Proof.
  destruct (extraction_by_lines "text" "# A" eq_refl) as [Hskip _].
  destruct (extraction_by_lines "# A" "# C" eq_refl) as [_ Hmatch].
  destruct (Hmatch 3%nat "# B" eq_refl eq_refl) as [H2 H3].
  split; [|split].
  - rewrite Hskip; reflexivity.
  - rewrite H2. reflexivity.
  - rewrite H3. reflexivity.
Defined.

Lemma hashRun_hashes k t : hashRun (hashes k +:+ String " " t) = k.
Proof.
  induction k as [|k IH]; [done|].
  simpl hashes. rewrite app_cons. simpl. by rewrite IH.
Qed.

Lemma length_hashes k : String.length (hashes k) = k.
Proof. induction k as [|k IH]; [done|]. simpl. by rewrite IH. Qed.

Lemma get_app_r a b : String.get (String.length a) (a +:+ b) = String.get 0 b.
Proof.
  induction a as [|c a IH]; [done|]. rewrite app_cons. simpl. apply IH.
Qed.

Lemma dotRun_all t :
  stringForall isDotChar t = true -> dotRun t = String.length t.
Proof.
  induction t as [|c t IH]; [done|]. simpl.
  intros [Hc Ht]%andb_true_iff. unfold isDotChar in Hc.
  apply negb_true_iff in Hc. rewrite Hc, (IH Ht). done.
Qed.

Lemma isDotChar_isLineChar t :
  stringForall isDotChar t = true -> stringForall isLineChar t = true.
Proof.
  induction t as [|c t IH]; [done|]. simpl.
  intros [Hc Ht]%andb_true_iff. rewrite (IH Ht), andb_true_r.
  unfold isDotChar, isLineTerminator in Hc. unfold isLineChar.
  apply negb_true_iff, orb_false_iff in Hc as [Hc _]. by rewrite Hc.
Qed.

Lemma stringForall_app P a b :
  stringForall P (a +:+ b) = stringForall P a && stringForall P b.
Proof.
  induction a as [|c a IH]; [done|].
  rewrite app_cons. simpl. by rewrite IH, andb_assoc.
Qed.

Lemma stringForall_hashes k : stringForall isLineChar (hashes k) = true.
Proof. induction k as [|k IH]; [done|]. simpl. by rewrite IH. Qed.

Lemma get_after_hashes k t :
  String.get k (hashes k +:+ String " " t) = Some " "%char.
Proof.
  rewrite <- (length_hashes k) at 1. by rewrite get_app_r.
Qed.

Lemma substrFrom_after_hashes k t :
  JS.substrFrom (hashes k +:+ String " " t) (S k) = t.
Proof.
  change (String " " t) with (" " +:+ t).
  rewrite <- app_assoc_string.
  replace (S k) with (String.length (hashes k +:+ " "))
    by (rewrite string_length_app, length_hashes; simpl; lia).
  apply substrFrom_app.
Qed.

Lemma matchAtStart_heading_line k t :
  stringForall isDotChar t = true -> t <> EmptyString ->
  matchAtStart (hashes (S k) +:+ String " " t)
  = Some (String.length (hashes (S k) +:+ String " " t)).
Proof.
  intros Hdot Hne. unfold matchAtStart.
  rewrite hashRun_hashes, get_after_hashes, substrFrom_after_hashes.
  rewrite (dotRun_all _ Hdot).
  change (S k =? 0)%nat with false. cbv iota.
  destruct (Nat.eqb_spec (String.length t) 0) as [H0|_].
  { destruct t; [done|discriminate]. }
  rewrite string_length_app, length_hashes. simpl String.length. f_equal. lia.
Qed.

(** A heading line alone: the whole line matches, and the first [#] is
    removed from it. *)
Lemma mapLines_heading_line k t :
  stringForall isDotChar t = true -> t <> EmptyString ->
  mapLines 0 [hashes (S k) +:+ " " +:+ t]
  = [JS.trim (hashes k +:+ " " +:+ t)].
Proof.
  intros Hdot Hne. rewrite mapLines_cons.
  change (" " +:+ t) with (String " " t).
  rewrite (regexExec_match _ _ (matchAtStart_heading_line k t Hdot Hne)).
  cbn [fst snd from_option id mapLines].
  unfold JS.substr. rewrite substring_all.
  change (hashes (S k) +:+ String " " t)
    with ("#" +:+ (hashes k +:+ String " " t)).
  by rewrite removeFirst_prefix.
Qed.

(** X16. A heading line alone in a text: a line of one [#], a space and a
    content without line terminators yields the content trimmed, when
    that is not empty; a line of [k + 2] marks yields one title that still
    starts with [k + 1] of them. *)
Theorem heading_line_title (k : nat) (t : string) :
  stringForall isDotChar t = true ->
  t <> EmptyString ->
  (JS.trim t <> EmptyString ->
   findHeadingsInDocument ("# " +:+ t) = [JS.trim t]) /\
  findHeadingsInDocument (hashes (S (S k)) +:+ " " +:+ t)
  = [JS.trim (hashes (S k) +:+ " " +:+ t)].
Proof.
  intros Hdot Hne.
  assert (forall j, JS.splitLines (hashes (S j) +:+ " " +:+ t)
                    = [hashes (S j) +:+ " " +:+ t]) as Hsplit.
  { intros j. apply splitLines_line.
    rewrite stringForall_app, stringForall_hashes.
    change (" " +:+ t) with (String " " t). simpl.
    by apply isDotChar_isLineChar. }
  split.
  - intros Htrim. unfold findHeadingsInDocument.
    change ("# " +:+ t) with (hashes 1 +:+ " " +:+ t).
    rewrite Hsplit, (mapLines_heading_line 0 t Hdot Hne).
    change (hashes 0 +:+ " " +:+ t) with (String " " t).
    change (JS.trim (String " " t)) with (JS.trim t).
    by rewrite filter_cons_True.
  - unfold findHeadingsInDocument.
    rewrite Hsplit, (mapLines_heading_line (S k) t Hdot Hne).
    rewrite filter_cons_True; [done|].
    simpl hashes. rewrite app_cons. unfold JS.trim. simpl JS.trimStart.
    rewrite trimEnd_cons. by destruct (JS.trimEnd _).
Qed.

Lemma heading_line_title_witness :
  findHeadingsInDocument ("# " +:+ "Plan  ") = ["Plan"] /\
  findHeadingsInDocument (hashes 3 +:+ " " +:+ "Plan  ") = ["## Plan"].
Proof.
  destruct (heading_line_title 1 "Plan  " eq_refl) as [H1 H2]; [discriminate|].
  split.
  - rewrite H1; [reflexivity|discriminate].
  - rewrite H2. reflexivity.
Defined.

(** ** The directory walk: paths and completeness *)

Lemma substring_split s k :
  (k <= String.length s)%nat ->
  s = String.substring 0 k s +:+ String.substring k (String.length s - k) s.
Proof.
  revert k. induction s as [|c s IH]; intros [|k] Hk; simpl in *.
  - done.
  - lia.
  - by rewrite substring_all.
  - rewrite app_cons. f_equal. apply IH. lia.
Qed.

Lemma endsWith_inv s e : JS.endsWith s e = true -> exists a, s = a +:+ e.
Proof.
  unfold JS.endsWith. intros [Hle Heq]%andb_true_iff.
  apply Nat.leb_le in Hle. apply bool_decide_eq_true in Heq.
  exists (String.substring 0 (String.length s - String.length e) s).
  pose proof (substring_split s (String.length s - String.length e)) as H.
  replace (String.length s - (String.length s - String.length e))%nat
    with (String.length e) in H by lia.
  rewrite Heq in H. apply H. lia.
Qed.

Lemma endsWith_app_l a b e :
  JS.endsWith b e = true -> JS.endsWith (a +:+ b) e = true.
Proof.
  intros [b' ->]%endsWith_inv. rewrite <- app_assoc_string.
  apply endsWith_app.
Qed.

Lemma locationOf_under dir name : exists suffix, locationOf dir name = dir +:+ suffix.
Proof.
  unfold locationOf. destruct (JS.endsWith dir "/").
  - by exists name.
  - exists ("/" +:+ name). by rewrite app_assoc_string.
Qed.

Lemma forEachMarkdown_paths dir files :
  Forall (fun entry => forall dir' found,
            markdownFiles dir' entry.2 = Some found ->
            Forall (pathUnder dir') found) files ->
  forall found,
    forEachMarkdown markdownFiles dir files = Some found ->
    Forall (pathUnder dir) found.
Proof.
  induction 1 as [|[name file] files Hfile _ IH]; intros found Hfound.
  { simpl in Hfound. simplify_eq. constructor. }
  simpl in *.
  destruct (JS.startsWith name "." || isSymbolicLink file); [by apply IH|].
  assert (JS.endsWith name ".md" = true ->
          pathUnder dir (locationOf dir name)) as Hmd.
  { intros Hmd. split; [apply locationOf_under|].
    unfold locationOf. by apply endsWith_app_l. }
  destruct (statIsDirectory file) as [[|]|]; [| |done].
  - destruct (markdownFiles (locationOf dir name) file) as [sub|] eqn:Hsub;
      [|done].
    destruct (forEachMarkdown markdownFiles dir files) as [more|]; [|done].
    simplify_eq. apply Forall_app. split; [|by apply IH].
    eapply Forall_impl; [apply (Hfile _ _ Hsub)|].
    intros path [[suffix ->] Hend]. split; [|done].
    destruct (locationOf_under dir name) as [suffix' ->].
    exists (suffix' +:+ suffix). by rewrite app_assoc_string.
  - destruct (JS.endsWith name ".md") eqn:E; [|by apply IH].
    destruct (forEachMarkdown markdownFiles dir files) as [more|]; [|done].
    simplify_eq. constructor; [by apply Hmd|by apply IH].
Qed.

Lemma markdownFiles_paths d dir found :
  markdownFiles dir d = Some found -> Forall (pathUnder dir) found.
Proof.
  revert dir found.
  induction d as [| |files IH| |] using DirEntry_tree_ind; intros dir found;
    try done.
  simpl. by apply forEachMarkdown_paths.
Qed.

(** X17. Every path returned by the walk lies under the walked directory
    (the directory path is a prefix of it) and ends in [.md]. *)
Theorem walk_paths_under_directory (dir : string) (count : Z) (d : DirEntry)
    (files : list string) :
  getAllFiles dir count d = Some files ->
  Forall (fun path => JS.startsWith path dir = true /\
                      JS.endsWith path ".md" = true)
         files.
Proof.
  intros Hwalk.
  destruct (getAllFiles_agrees d dir count) as (HA & HB & _).
  rewrite Hwalk in HA.
  destruct (getAllFilesTraced dir count d).1 as [[files' listed]|] eqn:Ht;
    [|done].
  simpl in HA. simplify_eq.
  destruct (HB _ _ eq_refl) as (Hmd & _).
  eapply Forall_impl; [apply (markdownFiles_paths _ _ _ Hmd)|].
  intros path [[suffix ->] Hend]. split; [apply prefix_app_string|done].
Qed.

Lemma walk_paths_under_directory_witness :
  Forall (fun path => JS.startsWith path "/notes" = true /\
                      JS.endsWith path ".md" = true)
         ["/notes/a.md"; "/notes/sub/b.md"].
Proof.
  apply (walk_paths_under_directory "/notes" 0
           (Directory [("a.md", RegularFile);
                       ("sub", Directory [("b.md", RegularFile);
                                          ("c.txt", RegularFile)])])).
  reflexivity.
Defined.

Lemma forEachFile_complete dir files :
  Forall (fun entry =>
            forall dir',
              (forall found, markdownFiles dir' entry.2 = Some found ->
                             (List.length found <= treeSize entry.2)%nat) /\
              forall count,
                count + Z.of_nat (treeSize entry.2) <= 1000 ->
                getAllFiles dir' count entry.2 = markdownFiles dir' entry.2)
         files ->
  (forall found, forEachMarkdown markdownFiles dir files = Some found ->
                 (List.length found <= entriesSize treeSize files)%nat) /\
  forall count allFiles,
    Z.of_nat (List.length allFiles) + count
      + Z.of_nat (entriesSize treeSize files) <= 1000 ->
    forEachFile getAllFiles dir files count allFiles
    = (fun found => allFiles ++ found)
        <$> forEachMarkdown markdownFiles dir files.
Proof.
  induction 1 as [|[name file] files Hfile _ [IHlen IH]].
  - split; [by intros found [= <-]|].
    intros count allFiles _. simpl. by rewrite app_nil_r.
  - simpl in Hfile. split.
    + intros found. simpl.
      destruct (JS.startsWith name "." || isSymbolicLink file).
      { intros Hfound. specialize (IHlen _ Hfound). lia. }
      destruct (statIsDirectory file) as [[|]|]; [| |done].
      * destruct (markdownFiles (locationOf dir name) file) as [sub|] eqn:Hsub;
          [|done].
        destruct (forEachMarkdown markdownFiles dir files) as [more|]; [|done].
        intros [= <-]. rewrite length_app.
        destruct (Hfile (locationOf dir name)) as [Hlen _].
        specialize (Hlen _ Hsub). specialize (IHlen _ eq_refl). lia.
      * destruct (JS.endsWith name ".md").
        -- destruct (forEachMarkdown markdownFiles dir files) as [more|];
             [|done].
           intros [= <-]. specialize (IHlen _ eq_refl). simpl. lia.
        -- intros Hfound. specialize (IHlen _ Hfound). lia.
    + intros count allFiles Hbound.
      simpl in Hbound. simpl forEachFile. simpl forEachMarkdown.
      destruct (JS.startsWith name "." || isSymbolicLink file).
      { apply IH. lia. }
      destruct (statIsDirectory file) as [[|]|]; [| |done].
      * destruct (Hfile (locationOf dir name)) as [Hlen Hsub].
        rewrite Hsub by lia.
        destruct (markdownFiles (locationOf dir name) file) as [sub|] eqn:Hmd;
          [|done].
        specialize (Hlen _ eq_refl).
        rewrite IH by (rewrite length_app; lia).
        destruct (forEachMarkdown markdownFiles dir files) as [more|]; [|done].
        simpl. by rewrite <- app_assoc.
      * destruct (JS.endsWith name ".md").
        -- rewrite IH by (rewrite length_app; simpl; lia).
           destruct (forEachMarkdown markdownFiles dir files) as [more|];
             [|done].
           simpl. by rewrite <- app_assoc.
        -- apply IH. lia.
Qed.

Lemma getAllFiles_complete d :
  forall dir,
    (forall found, markdownFiles dir d = Some found ->
                   (List.length found <= treeSize d)%nat) /\
    forall count,
      count + Z.of_nat (treeSize d) <= 1000 ->
      getAllFiles dir count d = markdownFiles dir d.
Proof.
  induction d as [| |files IH| |] using DirEntry_tree_ind; intros dir.
  1,2,4,5: split; [done|]; intros count Hbound; simpl in *;
    by destruct (Z.ltb_spec 1000 count); [lia|].
  destruct (forEachFile_complete dir files IH) as [Hlen Hall].
  split; [done|]. intros count Hbound. simpl in *.
  destruct (Z.ltb_spec 1000 count); [lia|].
  rewrite Hall by (simpl; lia).
  by destruct (forEachMarkdown markdownFiles dir files).
Qed.

(** X18. The walk lists a tree completely when the starting counter plus
    the number of entries of the tree (at every depth, of every kind) is at
    most 1000: then it returns every regular non-hidden [.md] file below
    non-hidden real directories, in walk order, and it raises an exception
    exactly when the complete listing raises one. *)
Theorem walk_complete_on_small_tree (dir : string) (count : Z) (d : DirEntry) :
  count + Z.of_nat (treeSize d) <= 1000 ->
  getAllFiles dir count d = markdownFiles dir d.
Proof. apply getAllFiles_complete. Qed.

Lemma walk_complete_on_small_tree_witness :
  getAllFiles "/notes" 0
    (Directory [("a.md", RegularFile);
                (".git", Directory [("x.md", RegularFile)]);
                ("sub", Directory [("b.md", RegularFile); ("c.txt", RegularFile)]);
                ("l.md", SymbolicLink)])
  = Some ["/notes/a.md"; "/notes/sub/b.md"].
Proof.
  rewrite walk_complete_on_small_tree; [reflexivity|simpl; lia].
Defined.

(** ** The resolve handler and the index over time *)

(** X19. Resolving an item twice gives what resolving it once gives. *)
Theorem resolve_idempotent (item : CompletionItem) :
  onCompletionResolve (onCompletionResolve item) = onCompletionResolve item.
Proof.
  unfold onCompletionResolve.
  destruct (bool_decide_reflect (item !! "data" = Some (JSNumber 1))) as [H1|H1].
  - rewrite bool_decide_eq_true_2
      by (by rewrite !lookup_insert_ne by discriminate).
    apply map_eq. intros k.
    destruct (decide (k = "documentation")) as [->|];
      [by rewrite !lookup_insert_eq|].
    destruct (decide (k = "detail")) as [->|].
    { rewrite !(lookup_insert_ne _ "documentation") by done.
      by rewrite !lookup_insert_eq. }
    by rewrite !lookup_insert_ne by done.
  - destruct (bool_decide_reflect (item !! "data" = Some (JSNumber 2)))
      as [H2|H2].
    + rewrite bool_decide_eq_false_2
        by (rewrite !lookup_insert_ne by discriminate; congruence).
      rewrite bool_decide_eq_true_2
        by (by rewrite !lookup_insert_ne by discriminate).
      apply map_eq. intros k.
      destruct (decide (k = "documentation")) as [->|];
        [by rewrite !lookup_insert_eq|].
      destruct (decide (k = "detail")) as [->|].
      { rewrite !(lookup_insert_ne _ "documentation") by done.
        by rewrite !lookup_insert_eq. }
      by rewrite !lookup_insert_ne by done.
    + by rewrite !bool_decide_eq_false_2.
Qed.

Lemma afterChanges_snoc rootUri ext docs doc notes :
  afterChanges rootUri ext (docs ++ [doc]) notes
  = addNoteToList rootUri ext doc (afterChanges rootUri ext docs notes).
Proof. unfold afterChanges. by rewrite foldl_snoc. Qed.

Lemma afterChanges_grows rootUri ext docs notes :
  NoDup (filename <$> notes) ->
  NoDup (filename <$> afterChanges rootUri ext docs notes) /\
  (filename <$> notes)
    `prefix_of` (filename <$> afterChanges rootUri ext docs notes) /\
  Forall (fun doc =>
            noteFilename rootUri ext (uri doc)
            ∈ filename <$> afterChanges rootUri ext docs notes) docs /\
  (List.length (afterChanges rootUri ext docs notes)
   <= List.length notes + List.length docs)%nat.
Proof.
  intros Hnd. induction docs as [|doc docs IH] using rev_ind.
  - split; [done|]. split; [done|]. split; [constructor|simpl; lia].
  - destruct IH as (IHnd & IHpre & IHall & IHlen).
    rewrite afterChanges_snoc. unfold addNoteToList.
    split; [by apply upsertNote_NoDup|].
    assert (forall name hs l,
              List.length (upsertNote name hs l)
              = List.length (filename <$> upsertNote name hs l)) as Hlen
      by (intros; by rewrite length_fmap).
    rewrite Hlen, upsertNote_filenames, length_app.
    destruct (decide _) as [Hin|Hin].
    + split; [done|]. split.
      * apply Forall_app. split; [done|]. by repeat constructor.
      * rewrite length_fmap. simpl. lia.
    + split; [by apply prefix_app_r|]. split.
      * apply Forall_app. split.
        -- eapply Forall_impl; [exact IHall|]. intros d Hd. simpl in Hd.
           apply elem_of_app. by left.
        -- repeat constructor. apply elem_of_app. right. by left.
      * rewrite length_app, length_fmap. simpl. lia.
Qed.

(** X20. Over any sequence of document changes the index only grows at
    its end: the identifiers it held stay where they were (so file
    completions keep their labels and numbers), distinct identifiers stay
    distinct, and every changed document has a note. No event removes a
    note. *)
Theorem index_grows_over_changes (rootUri ext : string)
    (docs : list TextDocument) (notes : list Note) :
  NoDup (filename <$> notes) ->
  NoDup (filename <$> afterChanges rootUri ext docs notes) /\
  (filename <$> notes)
    `prefix_of` (filename <$> afterChanges rootUri ext docs notes) /\
  Forall (fun doc =>
            noteFilename rootUri ext (uri doc)
            ∈ filename <$> afterChanges rootUri ext docs notes) docs.
Proof.
  intros Hnd.
  destruct (afterChanges_grows rootUri ext docs notes Hnd) as (?&?&?&?).
  done.
Qed.

Lemma index_grows_over_changes_witness :
  let docs := [{| uri := "file:///v/b.txt"; getText := "# B" |};
               {| uri := "file:///v/a.txt"; getText := "" |}] in
  let notes := [{| filename := "a"; headings := [] |}] in
  NoDup (filename <$> afterChanges "file:///v" ".txt" docs notes) /\
  (filename <$> notes)
    `prefix_of` (filename <$> afterChanges "file:///v" ".txt" docs notes) /\
  Forall (fun doc =>
            noteFilename "file:///v" ".txt" (uri doc)
            ∈ filename <$> afterChanges "file:///v" ".txt" docs notes) docs.
Proof.
  intros docs notes. apply index_grows_over_changes. apply NoDup_singleton.
Defined.

(** X25. Startup of the variant with file discovery. When the walk
    returns, the index built from it holds a note for every file the walk
    returned, under the identifier derived from its path, with pairwise
    distinct identifiers, and no more notes than files. When an exception
    leaves the walk, it leaves the handler: no index is built. *)
Theorem startup_indexes_discovered_files (rootUri root : string)
    (tree : DirEntry) (readFile : string -> string) :
  (getAllFiles root 0 tree = None ->
   onInitializedIndex rootUri root tree readFile = None) /\
  (forall files,
     getAllFiles root 0 tree = Some files ->
     exists index,
       onInitializedIndex rootUri root tree readFile = Some index /\
       NoDup (filename <$> index) /\
       Forall (fun file => noteFilename rootUri ".md" file ∈ filename <$> index)
              files /\
       (List.length index <= List.length files)%nat).
Proof.
  unfold onInitializedIndex. split; [by intros ->|].
  intros files ->. eexists. split; [done|].
  destruct (afterChanges_grows rootUri ".md"
              (discoveredDocuments readFile files) [])
    as (Hnd & _ & Hall & Hlen); [apply NoDup_nil_2|].
  split; [done|]. split.
  - unfold discoveredDocuments in Hall. by rewrite Forall_fmap in Hall.
  - unfold discoveredDocuments in Hlen. rewrite length_fmap in Hlen.
    exact Hlen.
Qed.

Lemma startup_indexes_discovered_files_witness :
  onInitializedIndex "" "/notes" UnreadableDirectory (fun _ => "") = None /\
  exists index,
    onInitializedIndex "" "/notes"
      (Directory [("a.md", RegularFile);
                  ("sub", Directory [("b.md", RegularFile)])])
      (fun _ => "# Title") = Some index /\
    NoDup (filename <$> index) /\
    Forall (fun file => noteFilename "" ".md" file ∈ filename <$> index)
           ["/notes/a.md"; "/notes/sub/b.md"] /\
    (List.length index <= 2)%nat.
Proof.
  split.
  - apply (proj1 (startup_indexes_discovered_files "" "/notes"
                    UnreadableDirectory (fun _ => ""))).
    reflexivity.
  - apply (proj2 (startup_indexes_discovered_files "" "/notes"
                    (Directory [("a.md", RegularFile);
                                ("sub", Directory [("b.md", RegularFile)])])
                    (fun _ => "# Title"))
             ["/notes/a.md"; "/notes/sub/b.md"]).
    reflexivity.
Defined.

(** ** Diagnostics *)

Example validate_sample :
  message <$> default [] (validateTextDocument id false 10
     {| uri := "a.txt"; getText := "An ABC, xYZ and TODO_1 or OK." |})
  = ["ABC is all uppercase."; "OK is all uppercase."].
Proof. vm_compute. reflexivity. Qed.

Lemma tryLengths_Some text i n m :
  tryLengths text i n = Some m ->
  (2 <= m <= n)%nat /\ wordBoundary text (i + m) = true.
Proof.
  induction n as [|n IH]; [done|].
  change (tryLengths text i (S n)) with
    (if (2 <=? S n)%nat then
       if wordBoundary text (i + S n) then Some (S n) else tryLengths text i n
     else None).
  destruct (Nat.leb_spec 2 (S n)); [|done].
  destruct (wordBoundary text (i + S n)) eqn:Hb.
  - intros; simplify_eq. split; [lia|done].
  - intros H'. destruct (IH H') as [? ?]. split; [lia|done].
Qed.

Lemma upperRun_le s : (upperRun s <= String.length s)%nat.
Proof.
  induction s as [|c s IH]; [done|]. simpl.
  destruct (isUpperCase c); lia.
Qed.

Lemma upperRun_prefix s m :
  (m <= upperRun s)%nat ->
  stringForall isUpperCase (String.substring 0 m s) = true.
Proof.
  revert m. induction s as [|c s IH]; intros [|m] Hm; simpl in *; try done.
  destruct (isUpperCase c) eqn:Hc; [|lia]. simpl. apply IH. lia.
Qed.

Lemma length_substrFrom s i :
  String.length (JS.substrFrom s i) = (String.length s - i)%nat.
Proof.
  unfold JS.substrFrom. revert i. induction s as [|c s IH]; intros [|i]; simpl.
  - done.
  - done.
  - by rewrite substring_all.
  - apply IH.
Qed.

Lemma substring_substrFrom s i n :
  String.substring 0 n (JS.substrFrom s i) = String.substring i n s.
Proof.
  unfold JS.substrFrom. revert i n.
  induction s as [|c s IH]; intros [|i] n.
  - by destruct n.
  - by destruct n.
  - rewrite Nat.sub_0_r, substring_all. done.
  - simpl. apply IH.
Qed.

Lemma charAt_substring s i n j :
  (j < n)%nat -> (i + n <= String.length s)%nat ->
  JS.charAt (String.substring i n s) (Z.of_nat j) = JS.charAt s (Z.of_nat (i + j)).
Proof.
  intros Hj Hn. unfold JS.charAt.
  destruct (Z.ltb_spec (Z.of_nat j) 0); [lia|].
  destruct (Z.ltb_spec (Z.of_nat (i + j)) 0); [lia|].
  rewrite !Nat2Z.id.
  rewrite (String.substring_correct1 s i n j Hj). f_equal. lia.
Qed.

Lemma isUpperCase_isWordChar c : isUpperCase c = true -> isWordChar c = true.
Proof. intros H. unfold isWordChar. by rewrite H. Qed.

Lemma length_substring_exact s i n :
  (i + n <= String.length s)%nat -> String.length (String.substring i n s) = n.
Proof.
  revert i n. induction s as [|c s IH]; intros [|i] [|n] H; simpl in *;
    try done; try lia.
  - f_equal. apply (IH O n). lia.
  - apply (IH i O). lia.
  - apply (IH i (S n)). lia.
Qed.

Lemma get_in_range s j :
  (j < String.length s)%nat -> exists c, String.get j s = Some c.
Proof.
  revert j. induction s as [|c s IH]; intros [|j] Hj; simpl in *;
    try lia; eauto.
  apply IH. lia.
Qed.

Lemma matchUpperWordAt_Some text i n :
  matchUpperWordAt text i = Some n -> isUpperWord text i n.
Proof.
  unfold matchUpperWordAt. destruct (wordBoundary text i) eqn:Hstart; [|done].
  intros [[Hn2 Hrun] Hend]%tryLengths_Some.
  pose proof (upperRun_le (JS.substrFrom text i)) as Hle.
  rewrite length_substrFrom in Hle.
  assert (i + n <= String.length text)%nat as Hin by lia.
  pose proof (upperRun_prefix _ _ Hrun) as Hall.
  rewrite substring_substrFrom in Hall.
  assert (forall j, (j < n)%nat -> isWordAt text (Z.of_nat (i + j)) = true)
    as Hword.
  { intros j Hj. unfold isWordAt.
    rewrite <- (charAt_substring text i n j Hj Hin).
    destruct (JS.charAt (String.substring i n text) (Z.of_nat j)) as [c|] eqn:Hc.
    - apply isUpperCase_isWordChar. by apply (charAt_stringForall _ _ _ _ Hall Hc).
    - unfold JS.charAt in Hc.
      destruct (Z.ltb_spec (Z.of_nat j) 0); [lia|]. rewrite Nat2Z.id in Hc.
      destruct (get_in_range (String.substring i n text) j) as [c Hget].
      { by rewrite (length_substring_exact text i n Hin). }
      congruence. }
  split; [done|]. split; [done|]. split; [done|]. split.
  - unfold wordBoundary in Hstart.
    rewrite <- (Nat.add_0_r i) in Hstart at 2.
    rewrite (Hword O) in Hstart by lia.
    by destruct (isWordAt text (Z.of_nat i - 1)).
  - unfold wordBoundary in Hend.
    replace (Z.of_nat (i + n) - 1) with (Z.of_nat (i + (n - 1))) in Hend by lia.
    rewrite (Hword (n - 1)%nat) in Hend by lia.
    by destruct (isWordAt text (Z.of_nat (i + n))).
Qed.

Lemma searchUpperWord_Some text i tries j n :
  searchUpperWord text i tries = Some (j, n) ->
  (i <= j)%nat /\ matchUpperWordAt text j = Some n.
Proof.
  revert i. induction tries as [|tries IH]; intros i; [done|]. simpl.
  destruct (matchUpperWordAt text i) as [m|] eqn:Hm.
  - intros; simplify_eq. split; [lia|done].
  - intros H. destruct (IH _ H) as [? ?]. split; [lia|done].
Qed.

Lemma patternExec_Some text lastIndex j n lastIndex' :
  patternExec text lastIndex = (Some (j, n), lastIndex') ->
  (lastIndex <= j)%nat /\ lastIndex' = (j + n)%nat /\ isUpperWord text j n.
Proof.
  unfold patternExec.
  destruct (String.length text <? lastIndex)%nat; [done|].
  destruct (searchUpperWord text lastIndex _) as [[j' n']|] eqn:Hs; [|done].
  intros; simplify_eq.
  apply searchUpperWord_Some in Hs as [Hle Hm].
  split; [done|]. split; [done|]. by apply matchUpperWordAt_Some.
Qed.

Lemma patternExec_beyond text lastIndex :
  (String.length text < lastIndex)%nat ->
  patternExec text lastIndex = (None, O).
Proof.
  intros H. unfold patternExec.
  by rewrite (proj2 (Nat.ltb_lt _ _) H).
Qed.

Section Validate.
Context {P : Type} (positionAt : nat -> P) (related : bool)
        (docUri text : string).

Lemma validateLoop_returns fuel lastIndex problems diagnostics :
  (String.length text - lastIndex < fuel)%nat ->
  exists ds,
    validateLoop positionAt related docUri text fuel lastIndex problems
                 diagnostics = Some ds.
Proof.
  revert lastIndex problems diagnostics.
  induction fuel as [|fuel IH]; intros lastIndex problems diagnostics Hf; [lia|].
  simpl.
  destruct (patternExec text lastIndex) as [[[j n]|] lastIndex'] eqn:He;
    [|eauto].
  destruct (problems <? 300)%nat; [|eauto].
  apply patternExec_Some in He as (Hle & -> & (Hn & Hin & _)).
  apply IH. lia.
Qed.

Lemma validateLoop_sound fuel lastIndex problems diagnostics ds :
  validateLoop positionAt related docUri text fuel lastIndex problems
               diagnostics = Some ds ->
  (Forall (reportsUpperWord positionAt related docUri text) diagnostics ->
   Forall (reportsUpperWord positionAt related docUri text) ds) /\
  (problems = List.length diagnostics ->
   (List.length diagnostics <= 300)%nat -> (List.length ds <= 300)%nat).
Proof.
  revert lastIndex problems diagnostics.
  induction fuel as [|fuel IH]; intros lastIndex problems diagnostics; [done|].
  simpl.
  destruct (patternExec text lastIndex) as [[[j n]|] lastIndex'] eqn:He.
  - destruct (Nat.ltb_spec problems 300) as [Hlt|Hge].
    + intros H. destruct (IH _ _ _ H) as [Hall Hlen].
      apply patternExec_Some in He as (_ & _ & Hword). split.
      * intros Hd. apply Hall. apply Forall_app. split; [done|].
        repeat constructor. by exists j, n.
      * intros Hp Hl. apply Hlen; rewrite length_app; simpl; lia.
    + intros; simplify_eq. done.
  - intros; simplify_eq. done.
Qed.

Lemma validateLoop_more_fuel fuel fuel' lastIndex problems diagnostics ds :
  validateLoop positionAt related docUri text fuel lastIndex problems
               diagnostics = Some ds ->
  (fuel <= fuel')%nat ->
  validateLoop positionAt related docUri text fuel' lastIndex problems
               diagnostics = Some ds.
Proof.
  revert fuel' lastIndex problems diagnostics.
  induction fuel as [|fuel IH]; intros fuel' lastIndex problems diagnostics;
    [done|].
  intros H Hf. destruct fuel' as [|fuel']; [lia|]. simpl in *.
  destruct (patternExec text lastIndex) as [[[j n]|] lastIndex']; [|done].
  destruct (problems <? 300)%nat; [|done].
  apply IH; [done|lia].
Qed.

End Validate.

(** X21. The validation of a document returns: its loop ends within as many
    tests of its condition as the text has characters, plus one; more
    tests change nothing; and it sends at most 300 diagnostics. *)
Theorem validate_returns_bounded {P : Type} (positionAt : nat -> P)
    (related : bool) (fuel : nat) (textDocument : TextDocument) :
  (String.length (getText textDocument) < fuel)%nat ->
  exists ds,
    validateTextDocument positionAt related fuel textDocument = Some ds /\
    validateTextDocument positionAt related
      (S (String.length (getText textDocument))) textDocument = Some ds /\
    (List.length ds <= 300)%nat.
Proof.
  intros Hf. unfold validateTextDocument.
  destruct (validateLoop_returns positionAt related (uri textDocument)
              (getText textDocument)
              (S (String.length (getText textDocument))) 0 0 [])
    as [ds Hds]; [lia|].
  exists ds. split; [|split; [done|]].
  - apply (validateLoop_more_fuel _ _ _ _ _ _ _ _ _ _ Hds). lia.
  - apply validateLoop_sound in Hds as [_ Hlen]. apply Hlen; simpl; lia.
Qed.

Lemma validate_returns_bounded_witness :
  exists ds,
    validateTextDocument id false 6
      {| uri := "a.txt"; getText := "AB cd" |} = Some ds /\
    validateTextDocument id false 6
      {| uri := "a.txt"; getText := "AB cd" |} = Some ds /\
    (List.length ds <= 300)%nat.
Proof.
  apply (validate_returns_bounded id false 6
           {| uri := "a.txt"; getText := "AB cd" |}).
  simpl. lia.
Defined.

(** X22. Every diagnostic sent reports a word of the text: a run of at
    least two upper-case letters that lies inside the text and has no
    letter, digit or underscore directly before or after it; its range is
    the positions of the two ends of the run and its message names the
    run. *)
Theorem validate_reports_upper_words {P : Type} (positionAt : nat -> P)
    (related : bool) (fuel : nat) (textDocument : TextDocument)
    (ds : list (Diagnostic P)) :
  validateTextDocument positionAt related fuel textDocument = Some ds ->
  Forall (reportsUpperWord positionAt related (uri textDocument)
            (getText textDocument)) ds.
Proof.
  unfold validateTextDocument. intros H.
  apply validateLoop_sound in H as [Hall _]. apply Hall. constructor.
Qed.

Lemma validate_reports_upper_words_witness :
  Forall (reportsUpperWord id false "a.txt" "An ABC, xYZ or OK.")
    [diagnosticOf id false "a.txt" "An ABC, xYZ or OK." 3 3;
     diagnosticOf id false "a.txt" "An ABC, xYZ or OK." 15 2].
Proof.
  apply (validate_reports_upper_words id false 10
           {| uri := "a.txt"; getText := "An ABC, xYZ or OK." |}).
  vm_compute. reflexivity.
Defined.

Lemma upperRun_two s :
  (2 <= upperRun s)%nat ->
  exists c1 c2 r, s = String c1 (String c2 r) /\
                  isUpperCase c1 = true /\ isUpperCase c2 = true.
Proof.
  destruct s as [|c1 [|c2 r]]; simpl.
  - lia.
  - destruct (isUpperCase c1); lia.
  - destruct (isUpperCase c1) eqn:H1; [|lia].
    destruct (isUpperCase c2) eqn:H2; [|lia]. eauto 6.
Qed.

Lemma substrFrom_chars text i c1 c2 r :
  JS.substrFrom text i = String c1 (String c2 r) ->
  JS.charAt text (Z.of_nat i) = Some c1 /\
  JS.charAt text (Z.of_nat i + 1) = Some c2.
Proof.
  intros H.
  pose proof (length_substrFrom text i) as Hlen. rewrite H in Hlen.
  simpl in Hlen. unfold JS.substrFrom in H.
  assert (forall p, (p < 2)%nat ->
            String.get (p + i) text = String.get p (String c1 (String c2 r)))
    as Hget.
  { intros p Hp. rewrite <- H. symmetry.
    apply String.substring_correct1. lia. }
  unfold JS.charAt.
  destruct (Z.ltb_spec (Z.of_nat i) 0); [lia|].
  destruct (Z.ltb_spec (Z.of_nat i + 1) 0); [lia|].
  replace (Z.to_nat (Z.of_nat i + 1)) with (1 + i)%nat by lia.
  rewrite Nat2Z.id. rewrite (Hget 1%nat) by lia.
  change i with (0 + i)%nat at 1. rewrite (Hget 0%nat) by lia. done.
Qed.

Lemma tryLengths_short text i n :
  (n <= 1)%nat -> tryLengths text i n = None.
Proof. intros H. destruct n as [|[|n]]; [done|done|lia]. Qed.

Lemma searchUpperWord_None text i tries :
  (forall j, matchUpperWordAt text j = None) ->
  searchUpperWord text i tries = None.
Proof.
  intros H. revert i. induction tries as [|tries IH]; intros i; [done|].
  simpl. by rewrite H, IH.
Qed.

(** X23. A text in which no upper-case letter is directly followed by
    another one gets no diagnostic at all. *)
Theorem validate_without_adjacent_capitals {P : Type} (positionAt : nat -> P)
    (related : bool) (fuel : nat) (textDocument : TextDocument) :
  (forall i c1 c2,
     JS.charAt (getText textDocument) i = Some c1 ->
     JS.charAt (getText textDocument) (i + 1) = Some c2 ->
     isUpperCase c1 && isUpperCase c2 = false) ->
  (1 <= fuel)%nat ->
  validateTextDocument positionAt related fuel textDocument = Some [].
Proof.
  intros Hno Hf. unfold validateTextDocument.
  destruct fuel as [|fuel]; [lia|]. simpl.
  assert (forall j, matchUpperWordAt (getText textDocument) j = None) as Hnone.
  { intros j. unfold matchUpperWordAt.
    destruct (wordBoundary _ j); [|done].
    apply tryLengths_short.
    destruct (Nat.le_gt_cases (upperRun (JS.substrFrom (getText textDocument) j)) 1)
      as [|Hrun]; [done|].
    apply upperRun_two in Hrun as (c1 & c2 & r & Hs & H1 & H2).
    apply substrFrom_chars in Hs as [Hc1 Hc2].
    specialize (Hno _ _ _ Hc1 Hc2). rewrite H1, H2 in Hno. done. }
  unfold patternExec.
  destruct (_ <? _)%nat; [done|].
  by rewrite (searchUpperWord_None _ _ _ Hnone).
Qed.

Lemma validate_without_adjacent_capitals_witness :
  validateTextDocument id true 1
    {| uri := "a.txt"; getText := "A bC" |} = Some [].
Proof.
  apply validate_without_adjacent_capitals; [|lia].
  simpl. intros i c1 c2 H1 H2.
  assert (0 <= i < 4 \/ i < 0 \/ 4 <= i) as [Hi|[Hi|Hi]] by lia.
  - assert (i = 0 \/ i = 1 \/ i = 2 \/ i = 3) as [-> | [-> | [-> | -> ]]] by lia;
      vm_compute in H1, H2; simplify_eq; reflexivity.
  - by rewrite charAt_negative in H1.
  - by rewrite charAt_beyond in H1.
Defined.

(** ** The scan reads nothing to the right of the cursor character *)

Lemma substring_ext s1 s2 a n :
  (a + n <= String.length s1)%nat -> (a + n <= String.length s2)%nat ->
  (forall j, (j < a + n)%nat -> String.get j s1 = String.get j s2) ->
  String.substring a n s1 = String.substring a n s2.
Proof.
  revert s2 a n. induction s1 as [|c1 s1 IH]; intros [|c2 s2] a n H1 H2 Hget;
    simpl in H1, H2.
  - done.
  - assert (a = O /\ n = O) as [-> ->] by lia. done.
  - assert (a = O /\ n = O) as [-> ->] by lia. done.
  - destruct a as [|a].
    + destruct n as [|n]; [done|]. simpl.
      pose proof (Hget O ltac:(lia)) as H0. simpl in H0. simplify_eq.
      f_equal. apply (IH s2 O n); [lia|lia|].
      intros j Hj. apply (Hget (S j)). lia.
    + simpl. apply IH; [lia|lia|].
      intros j Hj. apply (Hget (S j)). lia.
Qed.

Lemma charAt_Some_length s i c :
  JS.charAt s i = Some c -> 0 <= i < Z.of_nat (String.length s).
Proof.
  intros H. destruct (Z.lt_ge_cases i 0) as [Hneg|Hpos].
  { by rewrite charAt_negative in H. }
  destruct (Z.lt_ge_cases i (Z.of_nat (String.length s))) as [|Hge]; [lia|].
  by rewrite charAt_beyond in H.
Qed.

Lemma JS_substring_agree t1 t2 x y :
  0 <= x -> 0 <= y ->
  Z.max x y <= Z.of_nat (String.length t1) ->
  Z.max x y <= Z.of_nat (String.length t2) ->
  (forall q, q < Z.max x y -> JS.charAt t1 q = JS.charAt t2 q) ->
  JS.substring t1 x y = JS.substring t2 x y.
Proof.
  intros Hx Hy H1 H2 Hagree. unfold JS.substring, JS.clampIndex.
  rewrite !(Z.max_l x 0), !(Z.max_l y 0) by lia.
  rewrite !Z.min_l by lia.
  apply substring_ext; [lia|lia|].
  intros j Hj. specialize (Hagree (Z.of_nat j)). unfold JS.charAt in Hagree.
  destruct (Z.ltb_spec (Z.of_nat j) 0); [lia|].
  rewrite Nat2Z.id in Hagree. apply Hagree. lia.
Qed.

Lemma scanLoop_agree t1 t2 c fuel s :
  (forall q, q <= c -> JS.charAt t1 q = JS.charAt t2 q) ->
  stateReads t1 s ->
  currentPosition s <= c ->
  (afterHeadingMarker s = true ->
   currentPosition s < headingMarkerPosition s <= c /\
   JS.charAt t1 (headingMarkerPosition s) = Some "#"%char) ->
  scanLoop fuel t1 s = scanLoop fuel t2 s.
Proof.
  intros Hagree. revert s. induction fuel as [|fuel IH]; intros s Hr Hp Hm;
    [done|].
  simpl.
  assert (forall s', currentPosition s' = currentPosition s ->
            stepBack t1 s' = stepBack t2 s') as Hstep.
  { intros s' Hs'. unfold stepBack. rewrite Hs'.
    by rewrite (Hagree (currentPosition s - 1)) by lia. }
  unfold loopBody.
  destruct (charIs s "#") eqn:Hhash.
  { rewrite <- Hstep by done. set (s1 := stepBack t1 _).
    destruct (loopCondition s1); [|done].
    apply IH; subst s1; simpl; [done|lia|].
    intros _. split; [lia|]. apply charIs_true in Hhash. by rewrite <- Hr. }
  destruct (charIs s "[") eqn:Hopen.
  { destruct (firstOpeningBraceHit s).
    - destruct (afterHeadingMarker s) eqn:Ha; [|done].
      destruct Hm as [Hrange Hchar]; [done|].
      apply charIs_true in Hopen. rewrite Hr in Hopen.
      apply charAt_Some_length in Hopen.
      pose proof Hchar as Hchar2. rewrite Hagree in Hchar2 by lia.
      apply charAt_Some_length in Hchar, Hchar2.
      do 2 f_equal. apply JS_substring_agree; try lia.
      intros q Hq. apply Hagree. lia.
    - rewrite <- Hstep by done. set (s1 := stepBack t1 _).
      destruct (loopCondition s1); [|done].
      apply IH; subst s1; simpl; [done|lia|].
      intros Ha. destruct (Hm Ha). split; [lia|done]. }
  destruct (charIs s "]") eqn:Hclose.
  { destruct (firstClosingBraceHit s); [done|].
    rewrite <- Hstep by done. set (s1 := stepBack t1 _).
    destruct (loopCondition s1); [|done].
    apply IH; subst s1; simpl; [done|lia|].
    intros Ha. destruct (Hm Ha). split; [lia|done]. }
  rewrite <- Hstep by done. set (s1 := stepBack t1 _).
  destruct (loopCondition s1); [|done].
  apply IH; subst s1; simpl; [done|lia|].
  intros Ha. destruct (Hm Ha). split; [lia|done].
Qed.

(** X24. The scan depends on the text up to the character at the cursor
    only: two texts with the same characters at every offset up to and
    including the cursor offset get the same answer, for every bound on
    the iterations. *)
Theorem scan_ignores_text_after_cursor (t1 t2 : string) (c : Z) (fuel : nat) :
  (forall q, q <= c -> JS.charAt t1 q = JS.charAt t2 q) ->
  linkContextScan fuel t1 c = linkContextScan fuel t2 c.
Proof.
  intros Hagree. unfold linkContextScan.
  assert (initialState t2 c = initialState t1 c) as ->.
  { unfold initialState. by rewrite (Hagree c) by lia. }
  by apply (scanLoop_agree t1 t2 c).
Qed.

Lemma scan_ignores_text_after_cursor_witness :
  linkContextScan 9 "ab [[Note]] cd" 8 = linkContextScan 9 "ab [[Notes and more" 8.
Proof.
  apply scan_ignores_text_after_cursor.
  intros q Hq.
  destruct (Z.lt_ge_cases q 0) as [Hneg|Hpos].
  - by rewrite !charAt_negative.
  - assert (q = 0 \/ q = 1 \/ q = 2 \/ q = 3 \/ q = 4 \/ q = 5 \/ q = 6
            \/ q = 7 \/ q = 8) as Hcases by lia.
    repeat destruct Hcases as [->|Hcases]; try reflexivity.
    subst. reflexivity.
Defined.

(** ** The identifier of a heading-link context *)

Lemma JS_substring_ordered s a b :
  0 <= a <= b -> b <= Z.of_nat (String.length s) ->
  JS.substring s a b = String.substring (Z.to_nat a) (Z.to_nat (b - a)) s.
Proof.
  intros Hab Hb. unfold JS.substring, JS.clampIndex.
  rewrite !Z.max_l, !Z.min_l by lia.
  rewrite Nat.min_l, Nat.max_r by lia.
  f_equal. lia.
Qed.

Lemma substring_one s n c :
  String.get n s = Some c -> String.substring n 1 s = String c EmptyString.
Proof.
  revert n. induction s as [|c' s IH]; intros [|n] H; simpl in *; try done.
  - simplify_eq. by destruct s.
  - by apply IH.
Qed.

Lemma JS_substring_swapped s q c :
  JS.charAt s q = Some c ->
  JS.substring s (q + 1) q = String c EmptyString.
Proof.
  intros H. pose proof (charAt_Some_length _ _ _ H) as Hq.
  unfold JS.substring, JS.clampIndex.
  rewrite !Z.max_l, !Z.min_l by lia.
  rewrite Nat.min_r, Nat.max_l by lia.
  replace (Z.to_nat (q + 1) - Z.to_nat q)%nat with 1%nat by lia.
  apply substring_one. unfold JS.charAt in H.
  by destruct (Z.ltb_spec q 0); [lia|].
Qed.

(** X9. The scan is sound: whenever it returns a link context, two [[]
    were read on the cursor line, and it returned at the left one, at
    offset [q1]; it returns the file-link context only when no [#] lies
    between [q1] and the cursor, and a heading-link context only for
    [docText.substring(q1 + 2, m)], where [m] is the offset of the leftmost
    [#] after [q1]. That is the text from [q1 + 2] up to that [#] when the
    [#] lies at [q1 + 2] or later; when the [#] follows the bracket
    directly, at [q1 + 1], [substring] swaps its arguments and the
    identifier is the one-character text [#]. *)
Theorem scan_link_context_sound (docText : string) (c : Z) (fuel : nat)
    (ctx : LinkContext) :
  linkContextScan fuel docText c = Some ctx ->
  ctx <> NoContext ->
  exists q1 q2,
    q1 < q2 <= c /\
    JS.charAt docText q1 = Some "["%char /\
    JS.charAt docText q2 = Some "["%char /\
    (forall q, q1 <= q < c -> JS.charAt docText q <> Some JS.LF) /\
    match ctx with
    | NoContext => False
    | FileLinkContext =>
        forall q, q1 < q <= c -> JS.charAt docText q <> Some "#"%char
    | HeadingLinkContext name =>
        exists m, q1 < m <= c /\
                  JS.charAt docText m = Some "#"%char /\
                  (forall q, q1 < q < m -> JS.charAt docText q <> Some "#"%char) /\
                  name = JS.substring docText (q1 + 2) m /\
                  ((q1 + 2 <= m /\
                    name = String.substring (Z.to_nat (q1 + 2))
                                            (Z.to_nat (m - (q1 + 2))) docText) \/
                   (m = q1 + 1 /\ name = "#"))
    end.
Proof.
  unfold linkContextScan. intros H Hctx.
  apply scanLoop_Some_inv in H as (k & s & Hs & [Hret|[? _]]); [|done].
  destruct (scanSteps_open_flag docText c k s Hs) as [Hflag Hlf].
  pose proof (scanSteps_marker docText c k s Hs) as Hmark.
  apply scanSteps_position in Hs as [_ Hr].
  specialize (Hr (initialState_reads docText c)). unfold stateReads in Hr.
  unfold loopBody in Hret.
  destruct (charIs s "#"); [done|].
  destruct (charIs s "[") eqn:Hb.
  2:{ destruct (charIs s "]"); [|done].
      destruct (firstClosingBraceHit s); [|done]. by simplify_eq. }
  apply charIs_true in Hb. rewrite Hr in Hb.
  destruct (firstOpeningBraceHit s); [|done].
  destruct Hflag as (q2 & Hq2 & Hc2); [done|].
  exists (currentPosition s), q2.
  split; [done|]. split; [done|]. split; [done|]. split; [done|].
  destruct (afterHeadingMarker s); simplify_eq.
  - destruct Hmark as (Hrange & Hchar & Hleft).
    exists (headingMarkerPosition s).
    split; [done|]. split; [done|]. split; [done|]. split; [done|].
    pose proof (charAt_Some_length _ _ _ Hchar) as Hlen.
    destruct (Z.eq_dec (headingMarkerPosition s) (currentPosition s + 1))
      as [Heq|Hne].
    + right. split; [done|]. rewrite Heq.
      replace (currentPosition s + 2) with (currentPosition s + 1 + 1) by lia.
      apply JS_substring_swapped. by rewrite <- Heq.
    + left. split; [lia|].
      pose proof (charAt_Some_length _ _ _ Hb) as Hlen'.
      apply JS_substring_ordered; lia.
  - done.
Qed.

Lemma scan_link_context_sound_witness :
  (exists q1 q2,
     q1 < q2 <= 16 /\
     JS.charAt "See [[Note#Head" q1 = Some "["%char /\
     JS.charAt "See [[Note#Head" q2 = Some "["%char /\
     (forall q, q1 <= q < 16 -> JS.charAt "See [[Note#Head" q <> Some JS.LF) /\
     exists m, q1 < m <= 16 /\
               JS.charAt "See [[Note#Head" m = Some "#"%char /\
               (forall q, q1 < q < m ->
                          JS.charAt "See [[Note#Head" q <> Some "#"%char) /\
               "Note" = JS.substring "See [[Note#Head" (q1 + 2) m /\
               ((q1 + 2 <= m /\
                 "Note" = String.substring (Z.to_nat (q1 + 2))
                            (Z.to_nat (m - (q1 + 2))) "See [[Note#Head") \/
                (m = q1 + 1 /\ "Note" = "#"))) /\
  (exists q1 q2,
     q1 < q2 <= 3 /\
     JS.charAt "[#[" q1 = Some "["%char /\
     JS.charAt "[#[" q2 = Some "["%char /\
     (forall q, q1 <= q < 3 -> JS.charAt "[#[" q <> Some JS.LF) /\
     exists m, q1 < m <= 3 /\
               JS.charAt "[#[" m = Some "#"%char /\
               (forall q, q1 < q < m -> JS.charAt "[#[" q <> Some "#"%char) /\
               "#" = JS.substring "[#[" (q1 + 2) m /\
               ((q1 + 2 <= m /\
                 "#" = String.substring (Z.to_nat (q1 + 2))
                         (Z.to_nat (m - (q1 + 2))) "[#[") \/
                (m = q1 + 1 /\ "#" = "#"))).
Proof.
  split.
  - apply (scan_link_context_sound "See [[Note#Head" 16 20
             (HeadingLinkContext "Note")).
    + reflexivity.
    + discriminate.
  - apply (scan_link_context_sound "[#[" 3 10 (HeadingLinkContext "#")).
    + reflexivity.
    + discriminate.
Defined.
